(** * Squashing the local-ancestry table

    A shallow embedding of the "sort and squash" cell of
    [4-analyses-with-tree-sequences.ipynb]:

<<
    new_sample = []
    new_left = []
    new_right = []
    new_population = []

    local_ancestry.sort_values(
        by=['child','left'], inplace=True, ignore_index=True)

    for ind, row in local_ancestry.iterrows():
        if ind > 0 and row['left']==new_right[-1] \
           and row['population'] == new_population[-1] \
           and row['child'] == new_sample[-1]:
            new_right[-1] = row['right']
        else:
            new_sample.append(row['child'])
            new_left.append(row['left'])
            new_right.append(row['right'])
            new_population.append(row['population'])

    squashed_ancestry_table = pd.DataFrame({
        'child': [int(i) for i in new_sample],
        'left' : new_left,
        'right': new_right,
        'population' : [int(p) for p in new_population]
    })
>>

    Positions are only ever compared and copied by the cell, never computed
    with, so they are modelled by [Z] with its order.  Node and population
    identifiers are the integers of the [int64] columns [child] and
    [population]; the loop sees them through [iterrows], which hands every
    row over as one [float64] series, so what it compares and stores is the
    [float64] nearest to each identifier. *)

From Stdlib Require Import ZArith List Bool Lia Arith.
From Stdlib Require Import Sorting.Sorted Sorting.Permutation.
Import ListNotations.
Open Scope Z_scope.

(** ** Python values and exceptions *)

Module Py.

(** The two exceptions the statements of the cell can raise: [xs[-1]] on
    an empty list, and [pd.DataFrame] on columns of unequal length.  The
    cell has no [raise] and defines no exception of its own. *)
Inductive exn : Type :=
| IndexError
| ValueError.

Inductive result (A : Type) : Type :=
| Ok (a : A)
| Raise (e : exn).
Arguments Ok {A} a.
Arguments Raise {A} e.

Definition bind {A B : Type} (m : result A) (k : A -> result B) : result B :=
  match m with
  | Ok a => k a
  | Raise e => Raise e
  end.

(** [xs[-1]] *)
Fixpoint last_item {A : Type} (xs : list A) : result A :=
  match xs with
  | [] => Raise IndexError
  | [x] => Ok x
  | _ :: xs' => last_item xs'
  end.

(** [xs[-1] = v] *)
Fixpoint set_last_item {A : Type} (xs : list A) (v : A) : result (list A) :=
  match xs with
  | [] => Raise IndexError
  | [_] => Ok [v]
  | x :: xs' => bind (set_last_item xs' v) (fun ys => Ok (x :: ys))
  end.

(** [xs.append(v)] *)
Definition append {A : Type} (xs : list A) (v : A) : list A := xs ++ [v].

(** [for x in xs: body], threading the state and stopping at the first
    exception. *)
Fixpoint for_each {S A : Type} (body : S -> A -> result S)
         (xs : list A) (st : S) : result S :=
  match xs with
  | [] => Ok st
  | x :: xs' => bind (body st x) (for_each body xs')
  end.

End Py.

Import Py.

Notation "x <- m ;; k" := (Py.bind m (fun x => k))
  (at level 61, m at next level, right associativity).

(** ** Data frames *)

(** A row of [local_ancestry] (and of [squashed_ancestry_table], which has
    the same four columns). *)
Record Row : Type := mkRow {
  left : Z;
  right : Z;
  population : Z;
  child : Z
}.

(** A data frame with a [RangeIndex]: its rows in index order. *)
Definition DataFrame : Type := list Row.

(** *** Identifiers as [float64]

    A [float64] has a 53-bit significand.  The integer nearest to [z] that
    is a multiple of the unit [u], ties going to the even multiple: *)
Definition round_to (u z : Z) : Z :=
  let q := z / u in
  let r := z mod u in
  if 2 * r <? u then q * u
  else if u <? 2 * r then (q + 1) * u
  else if Z.even q then q * u else (q + 1) * u.

(** The [float64] nearest to a non-negative integer: the integer itself
    when it has at most 53 bits, and otherwise the nearest multiple of the
    unit in the last place of its binade. *)
Definition nearest_float (z : Z) : Z :=
  let e := Z.log2 z in
  if e <? 53 then z else round_to (2 ^ (e - 52)) z.

(** The conversion of an [int64] to [float64] (round to nearest, ties to
    even), given by the integer the result holds.  An [int64] is below
    [2 ^ 63] in magnitude, far from the range where [float64] overflows. *)
Definition float64 (z : Z) : Z :=
  if z <? 0 then - nearest_float (- z) else nearest_float z.

(** [int(x)] of a [float64] holding an integer: that integer. *)
Definition int (x : Z) : Z := x.

(** A row as the series [iterrows] yields for it.  The columns [left] and
    [right] are [float64] already; [population] and [child] are [int64]
    and are converted to the common type [float64]. *)
Definition as_float (r : Row) : Row :=
  mkRow (left r) (right r) (float64 (population r)) (float64 (child r)).

(** [df.iterrows()] on a frame whose index is [0 .. n-1]. *)
Definition iterrows (df : DataFrame) : list (nat * Row) :=
  combine (seq 0 (length df)) (map as_float df).

(** Ascending lexicographic order on the key columns [['child','left']]. *)
Definition key_leb (r s : Row) : bool :=
  (child r <? child s) || ((child r =? child s) && (left r <=? left s)).

(** [sort_values(by=['child','left'], ignore_index=True)]: the rows in
    ascending key order, rows of equal key staying in their original order
    (pandas sorts on several columns with a stable lexsort), and the index
    renumbered.  A row is placed in front of the first already-sorted row
    whose key is not smaller, which keeps equal keys in input order. *)
Fixpoint insert_row (r : Row) (sorted : list Row) : list Row :=
  match sorted with
  | [] => [r]
  | s :: rest => if key_leb r s then r :: s :: rest else s :: insert_row r rest
  end.

Fixpoint sort_values (df : DataFrame) : DataFrame :=
  match df with
  | [] => []
  | r :: rest => insert_row r (sort_values rest)
  end.

(** [pd.DataFrame({...})] from four columns: all of one length, or
    [ValueError]. *)
Fixpoint frame_of_columns (cs ls rs ps : list Z) : result DataFrame :=
  match cs, ls, rs, ps with
  | [], [], [], [] => Ok []
  | c :: cs', l :: ls', r :: rs', p :: ps' =>
      rows <- frame_of_columns cs' ls' rs' ps' ;;
      Ok (mkRow l r p c :: rows)
  | _, _, _, _ => Raise ValueError
  end.

(** ** The cell *)

(** The notebook variables the cell reads or writes. *)
Record Globals : Type := mkGlobals {
  local_ancestry : DataFrame;
  new_sample : list Z;
  new_left : list Z;
  new_right : list Z;
  new_population : list Z
}.

(** The condition of the [if]; [and] evaluates its right operand only when
    the left one holds. *)
Definition merge_test (g : Globals) (ind : nat) (row : Row) : result bool :=
  if (0 <? ind)%nat then
    r <- last_item (new_right g) ;;
    if left row =? r then
      p <- last_item (new_population g) ;;
      if population row =? p then
        s <- last_item (new_sample g) ;;
        Ok (child row =? s)
      else Ok false
    else Ok false
  else Ok false.

(** The body of the [for] loop. *)
Definition loop_body (g : Globals) (it : nat * Row) : result Globals :=
  let (ind, row) := it in
  b <- merge_test g ind row ;;
  if b then
    nr <- set_last_item (new_right g) (right row) ;;
    Ok (mkGlobals (local_ancestry g) (new_sample g) (new_left g) nr
                  (new_population g))
  else
    Ok (mkGlobals (local_ancestry g)
                  (append (new_sample g) (child row))
                  (append (new_left g) (left row))
                  (append (new_right g) (right row))
                  (append (new_population g) (population row))).

(** The whole cell, run with [local_ancestry] bound to [df]: the final
    variables and the value of [squashed_ancestry_table].  The sort
    works on the [int64] columns of the frame; the lists [new_sample] and
    [new_population] hold the [float64] identifiers that [iterrows] handed
    over, and [int(i)] and [int(p)] turn each into the integer it holds,
    which is the rounded identifier. *)
Definition run_cell (df : DataFrame) : result (Globals * DataFrame) :=
  let g0 := mkGlobals (sort_values df) [] [] [] [] in
  g <- for_each loop_body (iterrows (local_ancestry g0)) g0 ;;
  table <- frame_of_columns (map int (new_sample g)) (new_left g)
                            (new_right g) (map int (new_population g)) ;;
  Ok (g, table).

Definition squashed_ancestry_table (df : DataFrame) : result DataFrame :=
  gt <- run_cell df ;; Ok (snd gt).

(** ** A functional reading of the loop *)

(** The last segment written so far is the open one.  [mergeable seg row]
    is the condition of the [if] once the lists are known to be non-empty,
    and [extend] is the effect of [new_right[-1] = row['right']]. *)
Definition mergeable (seg row : Row) : bool :=
  (left row =? right seg) && (population row =? population seg)
  && (child row =? child seg).

Definition extend (seg row : Row) : Row :=
  mkRow (left seg) (right row) (population seg) (child seg).

Fixpoint squash_from (seg : Row) (rows : list Row) : list Row :=
  match rows with
  | [] => [seg]
  | row :: rest =>
      if mergeable seg row then squash_from (extend seg row) rest
      else seg :: squash_from row rest
  end.

Definition squash_rows (rows : list Row) : list Row :=
  match rows with
  | [] => []
  | row :: rest => squash_from row rest
  end.

(** The four accumulator lists holding the segments [segs]. *)
Definition columns (la : DataFrame) (segs : list Row) : Globals :=
  mkGlobals la (map child segs) (map left segs) (map right segs)
            (map population segs).

(** ** Vocabulary of the specification *)

(** Two half-open intervals overlap. *)
Definition overlap (r s : Row) : Prop :=
  left s < right r /\ left r < right s.

(** Two records of the same child that overlap. *)
Definition clashb (r s : Row) : bool :=
  (child r =? child s) && (left s <? right r) && (left r <? right s).

(** A record of zero length. *)
Definition zero_length (r : Row) : bool := left r =? right r.

(** The input contract: every record has [left < right], and no two
    records (at different places of the sequence) of one child overlap. *)
Fixpoint input_contract (df : DataFrame) : bool :=
  match df with
  | [] => true
  | r :: rest =>
      (left r <? right r) && forallb (fun s => negb (clashb r s)) rest
      && input_contract rest
  end.

Definition key_le (r s : Row) : Prop :=
  child r < child s \/ (child r = child s /\ left r <= left s).

Definition key_lt (r s : Row) : Prop :=
  child r < child s \/ (child r = child s /\ left r < left s).

(** [s] comes after [r] without overlapping it: a later child, or the same
    child further right. *)
Definition before (r s : Row) : Prop :=
  child r < child s \/ (child r = child s /\ right r <= left s).

Definition proper (r : Row) : Prop := left r < right r.

(** [s] and [t] are consecutive rows of [df]. *)
Definition consecutive (df : DataFrame) (s t : Row) : Prop :=
  exists pre post, df = pre ++ s :: t :: post.

(** Position [x] of child [c] is reported with population [p]. *)
Definition labelled (df : DataFrame) (c x p : Z) : Prop :=
  exists r, In r df /\ child r = c /\ population r = p
            /\ left r <= x < right r.


(** [r] is the only record of its child in [df]. *)
Definition only_record_of_child (df : DataFrame) (r : Row) : Prop :=
  In r df /\ length (filter (fun s => child s =? child r) df) = 1%nat.

(** [s] starts where [r] starts, for the same child and population. *)
Definition same_start (s r : Row) : Prop :=
  left s = left r /\ population s = population r /\ child s = child r.

(** [s] ends where [r] ends, for the same child and population. *)
Definition same_end (s r : Row) : Prop :=
  right s = right r /\ population s = population r /\ child s = child r.

(** The loop would not merge [t] into [s]. *)
Definition unmergeable (s t : Row) : Prop := mergeable s t = false.

(** [r] and [s] do not clash. *)
Definition compatible (r s : Row) : Prop := clashb r s = false.

(** The rows of one child, in the order of the frame. *)
Definition group (c : Z) (df : DataFrame) : DataFrame :=
  filter (fun r => child r =? c) df.

(** Ascending order of the [child] column alone. *)
Definition child_le (r s : Row) : Prop := child r <= child s.

(** The sorted frame as the loop reads it. *)
Definition frame (df : DataFrame) : list Row :=
  map as_float (sort_values df).

(** An identifier that [float64] holds exactly. *)
Definition held_exactly (z : Z) : Prop := float64 z = z.

(** Every child identifier of the frame is held exactly. *)
Definition exact_children (df : DataFrame) : Prop :=
  Forall (fun r => held_exactly (child r)) df.

(** Every child and population identifier of the frame is held exactly. *)
Definition exact_ids (df : DataFrame) : Prop :=
  Forall (fun r => held_exactly (child r) /\ held_exactly (population r)) df.

(** ** Counting the merges *)

(** The number of rows of a frame that the loop merges into the segment
    before them when the frame is read in order: a row is merged exactly
    when it is mergeable with the row just before it. *)
Fixpoint merge_count (rows : list Row) : nat :=
  match rows with
  | [] => 0
  | r :: rest =>
      match rest with
      | [] => 0
      | s :: _ => (if mergeable r s then 1 else 0) + merge_count rest
      end
  end.

(** ** Python values of the other cells *)

From Stdlib Require String Ascii DecimalString QArith.
Import String.StringSyntax Ascii.AsciiSyntax.
Delimit Scope string_scope with string.
Bind Scope string_scope with String.string.
Delimit Scope char_scope with char.

Module Python.

(** The exceptions the statements of the other cells can raise. *)
Inductive exception : Type :=
| IndexError
| KeyError
| ValueError
| UnboundLocalError.

Inductive outcome (A : Type) : Type :=
| Returns (a : A)
| Raises (e : exception).
Arguments Returns {A} a.
Arguments Raises {A} e.

Definition bind {A B : Type} (m : outcome A) (k : A -> outcome B)
  : outcome B :=
  match m with
  | Returns a => k a
  | Raises e => Raises e
  end.

(** [xs[i]] on a list: a negative index counts from the end. *)
Definition getitem {A : Type} (xs : list A) (i : Z) : outcome A :=
  let n := Z.of_nat (length xs) in
  let k := if i <? 0 then i + n else i in
  if (0 <=? k) && (k <? n) then
    match nth_error xs (Z.to_nat k) with
    | Some x => Returns x
    | None => Raises IndexError
    end
  else Raises IndexError.

(** [d[k]] on a dict with integer keys, given by its items. *)
Fixpoint lookup {V : Type} (d : list (Z * V)) (k : Z) : outcome V :=
  match d with
  | [] => Raises KeyError
  | (k', v) :: d' => if k =? k' then Returns v else lookup d' k
  end.

(** What the body of a [for] loop tells the loop: go on, or [break]. *)
Inductive flow (S : Type) : Type :=
| Next (s : S)
| Break (s : S).
Arguments Next {S} s.
Arguments Break {S} s.

(** [for x in xs: body], with [break] and exceptions. *)
Fixpoint for_loop {S A : Type} (body : S -> A -> outcome (flow S))
         (xs : list A) (st : S) : outcome S :=
  match xs with
  | [] => Returns st
  | x :: xs' =>
      match body st x with
      | Raises e => Raises e
      | Returns (Break s) => Returns s
      | Returns (Next s) => for_loop body xs' s
      end
  end.

(** [for x in xs: body], threading the state and stopping at the first
    exception. *)
Fixpoint for_each {S A : Type} (body : S -> A -> outcome S)
         (xs : list A) (st : S) : outcome S :=
  match xs with
  | [] => Returns st
  | x :: xs' => bind (body st x) (for_each body xs')
  end.

(** [xs.index(a)] on a list of strings: the first position of [a]. *)
Fixpoint index (xs : list String.string) (a : String.string) : outcome nat :=
  match xs with
  | [] => Raises ValueError
  | x :: xs' =>
      if String.eqb x a then Returns O
      else bind (index xs' a) (fun i => Returns (S i))
  end.

(** [str(n)] for an integer. *)
Definition str (n : Z) : String.string :=
  DecimalString.NilZero.string_of_int (Z.to_int n).

End Python.

Notation "x <~ m ;; k" := (Python.bind m (fun x => k))
  (at level 61, m at next level, right associativity).

(** ** Plotting the squashed table *)

(** The loop of the plotting cell of [4-analyses-with-tree-sequences.ipynb]
    and the function defined just before it:

<<
    chrom_labels = {0: 'chr0', 1: 'chr1'}
    colors = ['red', 'blue']
    length = ts.sequence_length
    ...
    for ind, row in squashed_ancestry_table.iterrows():
        if row.child > 1:
            break
        chunk = np.array([[row.left/length, 0], [row.right/length, 0],
                          [row.right/length, 1], [row.left/length, 1]])
        if chrom_labels[row.child] == 'chr0':
            chr0.add_patch(Polygon(xy=chunk, color = colors[int(row.population)]))
        elif chrom_labels[row.child] == 'chr1':
            chr1.add_patch(Polygon(xy=chunk, color = colors[int(row.population)]))

    def plot_ancestry_chunk(row, chrom):
        l = row.left/seq_length
        r = row.right/seq_length
        p = row.population
        if int(p) == 0:
            c = 'blue'
        elif int(p) == 1:
            c = 'red'
        print('p is', p)
        chunk = np.array([[l, 0], [r, 0], [r, 1], [l, 1]])
        chrom.add_patch(Polygon(xy=chunk, color = c))
>>
*)

(** A coordinate handed to [Polygon]: a number written in the source, or
    the float quotient of a position by the sequence length, which is kept
    as the quotient it is. *)
Inductive Coordinate : Type :=
| Number (z : Z)
| Quotient (position sequence_length : Z).

(** [Polygon(xy=chunk, color=c)] *)
Record Polygon : Type := mkPolygon {
  xy : list (Coordinate * Coordinate);
  color : String.string
}.

(** The patches of the two axes [chr0] and [chr1], in the order they were
    added. *)
Record Figure : Type := mkFigure {
  chr0 : list Polygon;
  chr1 : list Polygon
}.

(** [ax.add_patch(p)] *)
Definition add_patch (patches : list Polygon) (p : Polygon) : list Polygon :=
  patches ++ [p].

Definition chrom_labels : list (Z * String.string) :=
  [(0, "chr0"%string); (1, "chr1"%string)].

Definition colors : list String.string := ["red"%string; "blue"%string].

(** The rectangle over [[left/length, right/length]] of height 1. *)
Definition chunk (sequence_length : Z) (row : Row)
  : list (Coordinate * Coordinate) :=
  [(Quotient (left row) sequence_length, Number 0);
   (Quotient (right row) sequence_length, Number 0);
   (Quotient (right row) sequence_length, Number 1);
   (Quotient (left row) sequence_length, Number 1)].

(** The body of the plotting loop over [squashed_ancestry_table.iterrows()]
    ([length] is [ts.sequence_length]). *)
Definition plot_body (sequence_length : Z) (fig : Figure) (row : Row)
  : Python.outcome (Python.flow Figure) :=
  if 1 <? child row then Python.Returns (Python.Break fig)
  else
    let chunk := chunk sequence_length row in
    label <~ Python.lookup chrom_labels (child row) ;;
    if String.eqb label "chr0" then
      c <~ Python.getitem colors (population row) ;;
      Python.Returns (Python.Next
        (mkFigure (add_patch (chr0 fig) (mkPolygon chunk c)) (chr1 fig)))
    else
      label' <~ Python.lookup chrom_labels (child row) ;;
      if String.eqb label' "chr1" then
        c <~ Python.getitem colors (population row) ;;
        Python.Returns (Python.Next
          (mkFigure (chr0 fig) (add_patch (chr1 fig) (mkPolygon chunk c))))
      else Python.Returns (Python.Next fig).

(** The loop, started with empty axes; the rows are those that
    [table.iterrows()] yields. *)
Definition plot_table (sequence_length : Z) (table : DataFrame)
  : Python.outcome Figure :=
  Python.for_loop (plot_body sequence_length) (map snd (iterrows table))
                  (mkFigure [] []).

(** [plot_ancestry_chunk(row, chrom)]: the values printed after ['p is'],
    and the patches of [chrom] afterwards.  [c] is bound only for the
    populations 0 and 1. *)
Definition plot_ancestry_chunk (seq_length : Z) (row : Row)
           (chrom : list Polygon)
  : list Z * Python.outcome (list Polygon) :=
  let l := Quotient (left row) seq_length in
  let r := Quotient (right row) seq_length in
  let p := population row in
  let c := if p =? 0 then Some "blue"%string
           else if p =? 1 then Some "red"%string
           else None in
  let chunk := [(l, Number 0); (r, Number 0); (r, Number 1); (l, Number 1)] in
  ([p],
   match c with
   | Some c => Python.Returns (add_patch chrom (mkPolygon chunk c))
   | None => Python.Raises Python.UnboundLocalError
   end).

(** The populations [colors] can be indexed with, and the colour found. *)
Definition colour_index (p : Z) : bool := (-2 <=? p) && (p <=? 1).

Definition colour_at (p : Z) : String.string :=
  if (p =? 0) || (p =? -2) then "red"%string else "blue"%string.

(** The patch the loop adds for a row. *)
Definition drawn (sequence_length : Z) (row : Row) : Polygon :=
  mkPolygon (chunk sequence_length row) (colour_at (population row)).

(** The rows of samples 0 and 1 whose population [colors] has no entry
    for. *)
Definition uncoloured (row : Row) : bool :=
  (child row <=? 1) && negb (colour_index (population row)).

(** ** Counting the transitions between alleles *)

(** The cell of [3-simulating-mutations-with-msprime.ipynb]:

<<
    def count_transitions(ts, alleles):
        counts = np.zeros((len(alleles), len(alleles)), dtype='int')
        for s in ts.sites():
            aa = s.ancestral_state
            for m in s.mutations:
                pa = aa
                da = m.derived_state
                if m.parent != tskit.NULL:
                    pa = ts.mutation(m.parent).derived_state
                counts[alleles.index(pa), alleles.index(da)] += 1
        print("\t", "\t".join(alleles))
        for j, a in enumerate(alleles):
            print(f"{a}\t", "\t".join(map(str, counts[j])))
>>
*)

Record Mutation : Type := mkMutation {
  derived_state : String.string;
  parent : Z
}.

Record Site : Type := mkSite {
  ancestral_state : String.string;
  mutations : list Mutation
}.

(** What the function uses of a tree sequence: its sites with their
    mutations, and the method [ts.mutation(id)], which belongs to tskit and
    is left open. *)
Record TreeSequence : Type := mkTreeSequence {
  sites : list Site;
  mutation : Z -> Python.outcome Mutation
}.

(** [tskit.NULL] *)
Definition NULL : Z := -1.

(** An element of an array of C [long], 64 bits wide here: sums wrap
    around. *)
Definition int64 (z : Z) : Z := (z + 2 ^ 63) mod 2 ^ 64 - 2 ^ 63.

(** [np.zeros((n, n), dtype='int')] *)
Definition zeros (n : nat) : list (list Z) := repeat (repeat 0 n) n.

Fixpoint set_nth {A : Type} (xs : list A) (i : nat) (v : A) : list A :=
  match xs, i with
  | [], _ => []
  | _ :: rest, O => v :: rest
  | x :: rest, S i' => x :: set_nth rest i' v
  end.

(** [counts[i, j] += 1] *)
Definition increment (counts : list (list Z)) (i j : nat)
  : Python.outcome (list (list Z)) :=
  match nth_error counts i with
  | None => Python.Raises Python.IndexError
  | Some row =>
      match nth_error row j with
      | None => Python.Raises Python.IndexError
      | Some c =>
          Python.Returns (set_nth counts i (set_nth row j (int64 (c + 1))))
      end
  end.

(** The value of [pa] when the counter is updated. *)
Definition parent_allele (ts : TreeSequence) (aa : String.string)
           (m : Mutation) : Python.outcome String.string :=
  let pa := aa in
  if negb (parent m =? NULL) then
    pm <~ mutation ts (parent m) ;;
    Python.Returns (derived_state pm)
  else Python.Returns pa.

(** The body of the inner loop. *)
Definition count_mutation (ts : TreeSequence) (alleles : list String.string)
           (aa : String.string) (counts : list (list Z)) (m : Mutation)
  : Python.outcome (list (list Z)) :=
  let da := derived_state m in
  pa <~ parent_allele ts aa m ;;
  i <~ Python.index alleles pa ;;
  j <~ Python.index alleles da ;;
  increment counts i j.

(** The body of the outer loop. *)
Definition count_site (ts : TreeSequence) (alleles : list String.string)
           (counts : list (list Z)) (s : Site)
  : Python.outcome (list (list Z)) :=
  let aa := ancestral_state s in
  Python.for_each (count_mutation ts alleles aa) (mutations s) counts.

(** The array [counts] when the loops are done. *)
Definition transition_counts (ts : TreeSequence)
           (alleles : list String.string)
  : Python.outcome (list (list Z)) :=
  Python.for_each (count_site ts alleles) (sites ts)
                  (zeros (length alleles)).

Definition tab : String.string :=
  String.String "009"%char String.EmptyString.

(** [print(a, b)]: the line written, the two values a space apart. *)
Definition print2 (a b : String.string) : String.string :=
  String.append a (String.append " " b).

(** The body of the printing loop. *)
Definition print_row (counts : list (list Z)) (lines : list String.string)
           (ja : nat * String.string)
  : Python.outcome (list String.string) :=
  let (j, a) := ja in
  row <~ Python.getitem counts (Z.of_nat j) ;;
  Python.Returns
    (lines ++ [print2 (String.append a tab)
                      (String.concat tab (map Python.str row))]).

(** [count_transitions(ts, alleles)]: the lines it prints. *)
Definition count_transitions (ts : TreeSequence)
           (alleles : list String.string)
  : Python.outcome (list String.string) :=
  counts <~ transition_counts ts alleles ;;
  Python.for_each (print_row counts)
                  (combine (seq 0 (length alleles)) alleles)
                  [print2 tab (String.concat tab alleles)].

(** The mutation [m] of a site with ancestral state [aa] goes from allele
    [a] to allele [b]. *)
Definition from_to (ts : TreeSequence) (a b : String.string)
           (aa : String.string) (m : Mutation) : bool :=
  match parent_allele ts aa m with
  | Python.Returns pa => String.eqb pa a && String.eqb (derived_state m) b
  | Python.Raises _ => false
  end.

(** The number of mutations of the tree sequence from [a] to [b]. *)
Definition count_from_to (ts : TreeSequence) (a b : String.string) : nat :=
  list_sum
    (map (fun s => length (filter (from_to ts a b (ancestral_state s))
                                  (mutations s)))
         (sites ts)).

(** The number of mutations of the tree sequence. *)
Definition num_mutations (ts : TreeSequence) : nat :=
  list_sum (map (fun s => length (mutations s)) (sites ts)).

(** The entry [counts[i, j]]. *)
Definition entry (counts : list (list Z)) (i j : nat) : option Z :=
  match nth_error counts i with
  | Some row => nth_error row j
  | None => None
  end.

(** A square array of side [n]. *)
Definition square (n : nat) (counts : list (list Z)) : Prop :=
  length counts = n /\ Forall (fun row => length row = n) counts.

(** The sum of all entries. *)
Definition total (counts : list (list Z)) : Z :=
  fold_right Z.add 0 (map (fold_right Z.add 0) counts).

(** Some mutation of the list goes from or to a state that is not among
    [alleles]. *)
Definition unknown_among (ts : TreeSequence) (alleles : list String.string)
           (aa : String.string) (muts : list Mutation) : Prop :=
  exists m pa, In m muts
    /\ parent_allele ts aa m = Python.Returns pa
    /\ (~ In pa alleles \/ ~ In (derived_state m) alleles).

(** A tree sequence to try the function on: two sites, three mutations,
    the second mutation of the first site on top of the first. *)
Definition sample_mutations : list Mutation :=
  [mkMutation "C" NULL; mkMutation "G" 0; mkMutation "A" NULL].

Definition sample_ts : TreeSequence :=
  mkTreeSequence
    [mkSite "A" [mkMutation "C" NULL; mkMutation "G" 0];
     mkSite "C" [mkMutation "A" NULL]]
    (fun id =>
       if id <? 0 then Python.Raises Python.ValueError
       else match nth_error sample_mutations (Z.to_nat id) with
            | Some m => Python.Returns m
            | None => Python.Raises Python.ValueError
            end).

Definition nucleotides : list String.string :=
  ["A"%string; "C"%string; "G"%string; "T"%string].

(** Every parent of a mutation can be looked up. *)
Definition parents_found (ts : TreeSequence) : Prop :=
  forall s m, In s (sites ts) -> In m (mutations s) ->
    parent m <> NULL -> exists pm, mutation ts (parent m) = Python.Returns pm.

(** Some mutation goes from or to a state that is not among [alleles]. *)
Definition unknown_state (ts : TreeSequence) (alleles : list String.string)
  : Prop :=
  exists s m pa, In s (sites ts) /\ In m (mutations s)
    /\ parent_allele ts (ancestral_state s) m = Python.Returns pa
    /\ (~ In pa alleles \/ ~ In (derived_state m) alleles).

(** ** The census nodes *)

(** The cell of [4-analyses-with-tree-sequences.ipynb]:

<<
    census_nodes = []
    for n in ts.nodes():
        if n.time == 599.5:
            census_nodes.append(n.id)
>>

    A time is a finite float, compared by its value. *)

Module Census.

Record Node : Type := mkNode {
  id : Z;
  time : QArith_base.Q
}.

(** [ts.nodes()]: the rows of the node table, here their times, each with
    its position in the table as [id]. *)
Definition nodes (times : list QArith_base.Q) : list Node :=
  map (fun it => mkNode (Z.of_nat (fst it)) (snd it))
      (combine (seq 0 (length times)) times).

(** [599.5] *)
Definition census_time : QArith_base.Q := QArith_base.Qmake 1199 2.

(** The body of the loop. *)
Definition census_body (census_nodes : list Z) (n : Node) : list Z :=
  if QArith_base.Qeq_bool (time n) census_time
  then census_nodes ++ [id n]
  else census_nodes.

Definition census_nodes (times : list QArith_base.Q) : list Z :=
  fold_left census_body (nodes times) [].

End Census.

(** ** Reading the VCF file *)

(** The cell that loads the sites of a VCF file into tsinfer:

<<
    lines = a_file.readlines()
    with tsinfer.SampleData(sequence_length=seq_length) as sample_data:
        for line in lines:
            if line[0] != "#":
                l = line.split("\t")
                pos = int(l[1])
                ref = l[3]
                alt = l[4]
                gens = ''.join(l[9:]).replace('|', '').replace('\n', '')
                gens = [int(g) for g in gens]
                sample_data.add_site(pos, gens, [ref, alt])
>>

    A string is the list of its characters, taken among those with a code
    below 256.  The builtin [int] and the method [add_site] of tsinfer are
    left open. *)

Module Vcf.

Definition text : Type := list Ascii.ascii.

Definition tab : Ascii.ascii := "009"%char.
Definition newline : Ascii.ascii := "010"%char.
Definition hash : Ascii.ascii := "#"%char.
Definition bar : Ascii.ascii := "|"%char.

(** [s.split(sep)] for a separator of one character. *)
Fixpoint split (sep : Ascii.ascii) (s : text) : list text :=
  match s with
  | [] => [[]]
  | c :: rest =>
      if Ascii.eqb c sep then [] :: split sep rest
      else match split sep rest with
           | [] => [[c]]
           | field :: fields => (c :: field) :: fields
           end
  end.

(** [s.replace(c, '')] for a string [c] of one character. *)
Definition remove (c : Ascii.ascii) (s : text) : text :=
  filter (fun x => negb (Ascii.eqb x c)) s.

(** The value of a decimal digit. *)
Definition digit (c : Ascii.ascii) : option Z :=
  let n := Z.of_N (Ascii.N_of_ascii c) in
  if (48 <=? n) && (n <=? 57) then Some (n - 48) else None.

Section Loader.

Variable int : text -> Python.outcome Z.
Variable SampleData : Type.
Variable add_site :
  SampleData -> Z -> list Z -> list text -> Python.outcome SampleData.

(** [[int(g) for g in gens]] *)
Fixpoint ints (gens : text) : Python.outcome (list Z) :=
  match gens with
  | [] => Python.Returns []
  | g :: rest =>
      d <~ int [g] ;;
      ds <~ ints rest ;;
      Python.Returns (d :: ds)
  end.

(** The body of the loop. *)
Definition load_line (sample_data : SampleData) (line : text)
  : Python.outcome SampleData :=
  first <~ Python.getitem line 0 ;;
  if negb (Ascii.eqb first hash) then
    let l := split tab line in
    p <~ Python.getitem l 1 ;;
    pos <~ int p ;;
    ref <~ Python.getitem l 3 ;;
    alt <~ Python.getitem l 4 ;;
    let gens := remove newline (remove bar (concat (skipn 9 l))) in
    gens <~ ints gens ;;
    add_site sample_data pos gens [ref; alt]
  else Python.Returns sample_data.

Definition load (lines : list text) (sample_data : SampleData)
  : Python.outcome SampleData :=
  Python.for_each load_line lines sample_data.

End Loader.

(** What is known of [int] on a string of one character: the value of a
    decimal digit, [ValueError] for anything else. *)
Definition reads_digits (int : text -> Python.outcome Z) : Prop :=
  forall c, int [c] = match digit c with
                      | Some d => Python.Returns d
                      | None => Python.Raises Python.ValueError
                      end.

(** A line the loop skips: one that starts with [#]. *)
Definition is_header (line : text) : bool :=
  match line with
  | c :: _ => Ascii.eqb c hash
  | [] => false
  end.

(** [sep.join(fields)] *)
Fixpoint join (sep : Ascii.ascii) (fields : list text) : text :=
  match fields with
  | [] => []
  | [field] => field
  | field :: rest => field ++ sep :: join sep rest
  end.

(** The character of a decimal digit. *)
Definition digit_char (d : Z) : Ascii.ascii :=
  Ascii.ascii_of_N (Z.to_N (48 + d)).

(** The genotype of one sample as a VCF writes it when it is phased: the
    allele of each chromosome copy, with [|] between them. *)
Definition phased (alleles : list Z) : text :=
  join bar (map (fun a => [digit_char a]) alleles).

(** A record of a VCF file: the eight fixed fields, the FORMAT field and
    one phased genotype for each sample, with tabs between them and a
    newline at the end. *)
Definition record (chrom pos id ref alt qual filter info format : text)
           (samples : list (list Z)) : text :=
  join tab ([chrom; pos; id; ref; alt; qual; filter; info; format]
            ++ map phased samples)
  ++ [newline].

(** An [int] to try the loop with: the decimal digits of a string, read
    from the left, and [ValueError] for the empty string or any other
    character. *)
Fixpoint decimal (acc : Z) (s : text) : option Z :=
  match s with
  | [] => Some acc
  | c :: rest =>
      match digit c with
      | Some d => decimal (10 * acc + d) rest
      | None => None
      end
  end.

Definition sample_int (s : text) : Python.outcome Z :=
  match s with
  | [] => Python.Raises Python.ValueError
  | _ => match decimal 0 s with
         | Some n => Python.Returns n
         | None => Python.Raises Python.ValueError
         end
  end.

(** An [add_site] to try the loop with: it keeps the arguments of every
    call. *)
Definition record_site (calls : list (Z * list Z * list text))
           (pos : Z) (gens : list Z) (alleles : list text)
  : Python.outcome (list (Z * list Z * list text)) :=
  Python.Returns (calls ++ [(pos, gens, alleles)]).

End Vcf.

(** A record to try the loop on: one site of two phased diploid samples,
    and the same site with the first sample unphased. *)
Definition sample_fields : list Vcf.text :=
  map String.list_ascii_of_string
      ["1"; "42"; "."; "A"; "T"; "."; "PASS"; "."; "GT"]%string.

Definition sample_record : Vcf.text :=
  Vcf.record (String.list_ascii_of_string "1")
             (String.list_ascii_of_string "42")
             (String.list_ascii_of_string ".")
             (String.list_ascii_of_string "A")
             (String.list_ascii_of_string "T")
             (String.list_ascii_of_string ".")
             (String.list_ascii_of_string "PASS")
             (String.list_ascii_of_string ".")
             (String.list_ascii_of_string "GT")
             [[0; 1]; [1; 1]].

Definition unphased_record : Vcf.text :=
  Vcf.join Vcf.tab
           (sample_fields
            ++ map String.list_ascii_of_string ["0/1"; "1|1"]%string)
  ++ [Vcf.newline].

(** ** The examples of the specification *)

Definition popA : Z := 0.
Definition popB : Z := 1.

(** An input that respects the contract: two children, records out of
    order, one pair to merge and one boundary between populations. *)
Definition sample_input : DataFrame :=
  [mkRow 5 10 popB 0; mkRow 10 12 popB 0; mkRow 3 4 popA 1;
   mkRow 0 5 popA 0; mkRow 0 2 popB 1].

Example example1 :
  squashed_ancestry_table [mkRow 0 5 popA 0; mkRow 5 10 popA 0]
  = Ok [mkRow 0 10 popA 0].
Proof. reflexivity. Qed.

Example example2 :
  squashed_ancestry_table [mkRow 0 5 popA 0; mkRow 5 10 popB 0]
  = Ok [mkRow 0 5 popA 0; mkRow 5 10 popB 0].
Proof. reflexivity. Qed.

Example example3 :
  squashed_ancestry_table [mkRow 3 4 popA 1; mkRow 0 2 popB 0]
  = Ok [mkRow 0 2 popB 0; mkRow 3 4 popA 1].
Proof. reflexivity. Qed.

Example example5 : squashed_ancestry_table [] = Ok [].
Proof. reflexivity. Qed.

(** ** The loop computes [squash_from] *)

Lemma last_item_app {A : Type} (xs : list A) (x : A) :
  last_item (xs ++ [x]) = Ok x.
Proof.
  induction xs as [|y ys IH]; simpl; [reflexivity|].
  rewrite IH. destruct ys; reflexivity.
Qed.

Lemma set_last_item_app {A : Type} (xs : list A) (x v : A) :
  set_last_item (xs ++ [x]) v = Ok (xs ++ [v]).
Proof.
  induction xs as [|y ys IH]; simpl; [reflexivity|].
  rewrite IH. destruct ys; reflexivity.
Qed.

Lemma merge_test_open la done seg ind row :
  (0 < ind)%nat ->
  merge_test (columns la (done ++ [seg])) ind row = Ok (mergeable seg row).
Proof.
  intros Hind. unfold merge_test, mergeable, columns; simpl.
  apply Nat.ltb_lt in Hind. rewrite Hind.
  rewrite !map_app; simpl. rewrite !last_item_app; simpl.
  destruct (left row =? right seg); simpl; [|reflexivity].
  destruct (population row =? population seg); reflexivity.
Qed.

Lemma loop_body_open la done seg ind row :
  (0 < ind)%nat ->
  loop_body (columns la (done ++ [seg])) (ind, row)
  = Ok (if mergeable seg row
        then columns la (done ++ [extend seg row])
        else columns la ((done ++ [seg]) ++ [row])).
Proof.
  intros Hind. unfold loop_body. rewrite merge_test_open by assumption.
  simpl. destruct (mergeable seg row).
  - unfold columns; simpl. rewrite !map_app; simpl.
    rewrite set_last_item_app. reflexivity.
  - unfold columns, append; simpl. rewrite !(map_app _ (done ++ [seg])).
    reflexivity.
Qed.

Lemma loop_from_open la rows : forall done seg k,
  (0 < k)%nat ->
  for_each loop_body (combine (seq k (length rows)) rows)
           (columns la (done ++ [seg]))
  = Ok (columns la (done ++ squash_from seg rows)).
Proof.
  induction rows as [|row rest IH]; intros done seg k Hk;
    cbn [length seq combine for_each squash_from].
  - reflexivity.
  - rewrite loop_body_open by assumption. cbn [bind].
    destruct (mergeable seg row).
    + apply IH. lia.
    + rewrite IH by lia. rewrite <- app_assoc. reflexivity.
Qed.

Lemma loop_from_start la rows :
  for_each loop_body (combine (seq 0 (length rows)) rows) (columns la [])
  = Ok (columns la (squash_rows rows)).
Proof.
  destruct rows as [|row rest]; [reflexivity|].
  cbn [length seq combine for_each].
  unfold loop_body at 1. cbn [merge_test Nat.ltb Nat.leb bind].
  change (for_each loop_body (combine (seq 1 (length rest)) rest)
            (columns la ([] ++ [row])) = Ok (columns la (squash_rows (row :: rest)))).
  rewrite loop_from_open by lia. reflexivity.
Qed.

(** The loop squashes the rows as [iterrows] hands them over. *)
Lemma loop_squashes la rows :
  for_each loop_body (iterrows rows) (columns la [])
  = Ok (columns la (squash_rows (map as_float rows))).
Proof.
  unfold iterrows. rewrite <- (length_map as_float rows).
  apply loop_from_start.
Qed.

Lemma map_int xs : map int xs = xs.
Proof. unfold int. apply map_id. Qed.

Lemma frame_of_columns_rows segs :
  frame_of_columns (map child segs) (map left segs) (map right segs)
                   (map population segs) = Ok segs.
Proof.
  induction segs as [|[l r p c] segs IH]; simpl; [reflexivity|].
  rewrite IH. reflexivity.
Qed.

Lemma run_cell_eq df :
  run_cell df
  = Ok (columns (sort_values df) (squash_rows (frame df)),
        squash_rows (frame df)).
Proof.
  unfold run_cell.
  change (mkGlobals (sort_values df) [] [] [] [])
    with (columns (sort_values df) []).
  simpl local_ancestry. rewrite loop_squashes. fold (frame df).
  cbn [bind columns new_sample new_left new_right new_population].
  rewrite !map_int, frame_of_columns_rows. reflexivity.
Qed.

Lemma squashed_ancestry_table_eq df :
  squashed_ancestry_table df = Ok (squash_rows (frame df)).
Proof. unfold squashed_ancestry_table. rewrite run_cell_eq. reflexivity. Qed.

(** ** Rounding to [float64] *)

Lemma round_to_cases u z :
  0 < u ->
  round_to u z = (z / u) * u \/
  (round_to u z = (z / u + 1) * u /\ u <= 2 * (z mod u)).
Proof.
  intros Hu. unfold round_to. cbv zeta.
  destruct (2 * (z mod u) <? u) eqn:E1; [now left|].
  destruct (u <? 2 * (z mod u)) eqn:E2; [right; split; [reflexivity|lia]|].
  destruct (Z.even (z / u)); [now left|right; split; [reflexivity|lia]].
Qed.

Lemma round_to_multiple u m : 0 < u -> round_to u (m * u) = m * u.
Proof.
  intros Hu. unfold round_to. cbv zeta.
  rewrite Z.mod_mul, Z.div_mul by lia.
  assert ((2 * 0 <? u) = true) as -> by lia. reflexivity.
Qed.

Lemma round_to_above u m z : 0 < u -> m * u <= z -> m * u <= round_to u z.
Proof.
  intros Hu H.
  assert (m <= z / u) as Hq by (apply Z.div_le_lower_bound; lia).
  destruct (round_to_cases u z Hu) as [->|[-> _]]; nia.
Qed.

Lemma round_to_below u m z : 0 < u -> z <= m * u -> round_to u z <= m * u.
Proof.
  intros Hu H.
  pose proof (Z.div_mod z u ltac:(lia)) as Hdm.
  pose proof (Z.mod_pos_bound z u Hu) as Hr.
  destruct (Z.eq_dec z (m * u)) as [->|Hne].
  - rewrite round_to_multiple by assumption. lia.
  - assert (z / u < m) as Hq by (apply Z.div_lt_upper_bound; lia).
    destruct (round_to_cases u z Hu) as [->|[-> _]]; nia.
Qed.

Lemma round_to_monotone u a b :
  0 < u -> a <= b -> round_to u a <= round_to u b.
Proof.
  intros Hu Hab.
  destruct (Z.eq_dec a b) as [->|Hne]; [apply Z.le_refl|].
  pose proof (Z.div_mod a u ltac:(lia)) as Ha.
  pose proof (Z.mod_pos_bound a u Hu) as Hra.
  destruct (round_to_cases u a Hu) as [E|[E Hhalf]]; rewrite E.
  - apply round_to_above; [assumption|]. nia.
  - destruct (Z_le_gt_dec ((a / u + 1) * u) b) as [Hb|Hb].
    + now apply round_to_above.
    + assert (b / u = a / u) as Hq.
      { symmetry. apply Z.div_unique with (r := b - u * (a / u)); nia. }
      assert (b mod u = b - u * (a / u)) as Hrb.
      { symmetry. apply Z.mod_unique with (q := a / u); nia. }
      unfold round_to. cbv zeta. rewrite Hq, Hrb.
      assert ((2 * (b - u * (a / u)) <? u) = false) as -> by nia.
      assert ((u <? 2 * (b - u * (a / u))) = true) as -> by nia.
      apply Z.le_refl.
Qed.

Lemma pow2_split e : 52 <= e -> 2 ^ e = 2 ^ 52 * 2 ^ (e - 52).
Proof.
  intros H. rewrite <- Z.pow_add_r by lia.
  replace (52 + (e - 52)) with e by lia. reflexivity.
Qed.

Lemma pow2_pos e : 0 <= e -> 0 < 2 ^ e.
Proof. intros H. apply Z.pow_pos_nonneg; lia. Qed.

Lemma nearest_float_small z : Z.log2 z < 53 -> nearest_float z = z.
Proof.
  intros H. unfold nearest_float. cbv zeta.
  assert ((Z.log2 z <? 53) = true) as -> by lia. reflexivity.
Qed.

Lemma nearest_float_large z :
  53 <= Z.log2 z ->
  nearest_float z = round_to (2 ^ (Z.log2 z - 52)) z.
Proof.
  intros H. unfold nearest_float. cbv zeta.
  assert ((Z.log2 z <? 53) = false) as -> by lia. reflexivity.
Qed.

(** Rounding stays inside the binade, its upper end included. *)
Lemma nearest_float_bounds z :
  0 < z ->
  2 ^ Z.log2 z <= nearest_float z <= 2 ^ (Z.log2 z + 1).
Proof.
  intros Hz. pose proof (Z.log2_spec z Hz) as [Hlo Hhi].
  replace (Z.succ (Z.log2 z)) with (Z.log2 z + 1) in Hhi by lia.
  destruct (Z_lt_le_dec (Z.log2 z) 53) as [H|H].
  - rewrite nearest_float_small by assumption. lia.
  - rewrite nearest_float_large by assumption.
    set (u := 2 ^ (Z.log2 z - 52)).
    assert (0 < u) as Hu by (apply pow2_pos; lia).
    assert (2 ^ Z.log2 z = 2 ^ 52 * u) as E1 by (apply pow2_split; lia).
    assert (2 ^ (Z.log2 z + 1) = 2 ^ 53 * u) as E2.
    { unfold u. rewrite <- Z.pow_add_r by lia.
      replace (53 + (Z.log2 z - 52)) with (Z.log2 z + 1) by lia.
      reflexivity. }
    rewrite E1, E2 in *. split.
    + apply round_to_above; [assumption|lia].
    + apply round_to_below; [assumption|lia].
Qed.

Lemma nearest_float_monotone a b :
  0 <= a <= b -> nearest_float a <= nearest_float b.
Proof.
  intros [Ha Hab].
  destruct (Z.eq_dec a 0) as [->|Ha0].
  - rewrite (nearest_float_small 0) by (simpl; lia).
    destruct (Z.eq_dec b 0) as [->|Hb0].
    + rewrite nearest_float_small by (simpl; lia). lia.
    + pose proof (nearest_float_bounds b ltac:(lia)) as [H _].
      pose proof (pow2_pos (Z.log2 b) (Z.log2_nonneg b)). lia.
  - pose proof (Z.log2_le_mono a b Hab) as Hlog.
    pose proof (nearest_float_bounds a ltac:(lia)) as [_ Hua].
    pose proof (nearest_float_bounds b ltac:(lia)) as [Hlb _].
    destruct (Z.eq_dec (Z.log2 a) (Z.log2 b)) as [E|E].
    + destruct (Z_lt_le_dec (Z.log2 a) 53) as [H|H].
      * rewrite !nearest_float_small by lia. assumption.
      * rewrite !nearest_float_large by lia. rewrite E.
        apply round_to_monotone; [apply pow2_pos; lia|assumption].
    + assert (2 ^ (Z.log2 a + 1) <= 2 ^ Z.log2 b)
        by (apply Z.pow_le_mono_r; lia).
      lia.
Qed.

Lemma nearest_float_nonneg z : 0 <= z -> 0 <= nearest_float z.
Proof.
  intros H. destruct (Z.eq_dec z 0) as [->|Hz].
  - rewrite nearest_float_small by (simpl; lia). lia.
  - pose proof (nearest_float_bounds z ltac:(lia)) as [Hlo _].
    pose proof (pow2_pos (Z.log2 z) (Z.log2_nonneg z)). lia.
Qed.

Lemma nearest_float_pos z : 0 < z -> 0 < nearest_float z.
Proof.
  intros H. pose proof (nearest_float_bounds z H) as [Hlo _].
  pose proof (pow2_pos (Z.log2 z) (Z.log2_nonneg z)). lia.
Qed.

(** The conversion keeps the order of the identifiers, non-strictly. *)
Lemma float64_monotone a b : a <= b -> float64 a <= float64 b.
Proof.
  intros H. unfold float64.
  destruct (a <? 0) eqn:Ea, (b <? 0) eqn:Eb.
  - assert (nearest_float (- b) <= nearest_float (- a))
      by (apply nearest_float_monotone; lia). lia.
  - pose proof (nearest_float_nonneg (- a) ltac:(lia)).
    pose proof (nearest_float_nonneg b ltac:(lia)). lia.
  - lia.
  - apply nearest_float_monotone. lia.
Qed.

Lemma nearest_float_idempotent z :
  0 <= z -> nearest_float (nearest_float z) = nearest_float z.
Proof.
  intros Hz0. destruct (Z_lt_le_dec (Z.log2 z) 53) as [H|H].
  - rewrite (nearest_float_small z H). now apply nearest_float_small.
  - assert (0 < z) as Hz.
    { destruct (Z.eq_dec z 0) as [->|]; [simpl in H; lia|lia]. }
    pose proof (nearest_float_bounds z Hz) as [Hlo Hhi].
    rewrite (nearest_float_large z H) in *.
    set (e := Z.log2 z) in *. set (u := 2 ^ (e - 52)) in *.
    assert (0 < u) as Hu by (apply pow2_pos; lia).
    assert (2 ^ e = 2 ^ 52 * u) as E1 by (apply pow2_split; lia).
    assert (2 ^ (e + 1) = 2 ^ 53 * u) as E2.
    { unfold u. rewrite <- Z.pow_add_r by lia.
      replace (53 + (e - 52)) with (e + 1) by lia. reflexivity. }
    set (y := round_to u z) in *.
    assert (exists m, y = m * u) as [m Hm].
    { unfold y. destruct (round_to_cases u z Hu) as [->|[-> _]]; eauto. }
    destruct (Z.eq_dec y (2 ^ (e + 1))) as [Ey|Ey].
    + assert (Z.log2 y = e + 1) as Hl
        by (rewrite Ey; apply Z.log2_pow2; lia).
      rewrite nearest_float_large by lia. rewrite Hl.
      replace (e + 1 - 52) with (e - 52 + 1) by lia.
      rewrite Z.pow_add_r by lia. fold u. change (2 ^ 1) with 2.
      rewrite Ey, E2.
      replace (2 ^ 53 * u) with (2 ^ 52 * (u * 2))
        by (change (2 ^ 53) with (2 ^ 52 * 2); ring).
      apply round_to_multiple. lia.
    + assert (Z.log2 y = e) as Hl.
      { apply Z.log2_unique; [lia|].
        replace (Z.succ e) with (e + 1) by lia. lia. }
      rewrite nearest_float_large by lia. rewrite Hl. fold u.
      rewrite Hm. now apply round_to_multiple.
Qed.

(** A [float64] converts to itself. *)
Lemma float64_idempotent z : float64 (float64 z) = float64 z.
Proof.
  unfold float64. destruct (z <? 0) eqn:E.
  - pose proof (nearest_float_pos (- z) ltac:(lia)) as Hp.
    assert ((- nearest_float (- z) <? 0) = true) as -> by lia.
    rewrite Z.opp_involutive, nearest_float_idempotent by lia.
    reflexivity.
  - pose proof (nearest_float_nonneg z ltac:(lia)) as Hp.
    assert ((nearest_float z <? 0) = false) as -> by lia.
    apply nearest_float_idempotent. lia.
Qed.

(** Every integer of magnitude at most [2 ^ 53] is held exactly. *)
Lemma float64_exact z : - 2 ^ 53 <= z <= 2 ^ 53 -> held_exactly z.
Proof.
  intros H. unfold held_exactly, float64.
  assert (forall x, 0 <= x <= 2 ^ 53 -> nearest_float x = x) as Hx.
  { intros x Hx. destruct (Z.eq_dec x (2 ^ 53)) as [->|Hne].
    - reflexivity.
    - apply nearest_float_small.
      destruct (Z.eq_dec x 0) as [->|]; [simpl; lia|].
      apply Z.log2_lt_pow2; lia. }
  destruct (z <? 0) eqn:E.
  - rewrite Hx by lia. lia.
  - apply Hx. lia.
Qed.

(** The first integer that is not: [2 ^ 53 + 1] is read as [2 ^ 53]. *)
Lemma float64_inexact : float64 (2 ^ 53 + 1) = 2 ^ 53.
Proof. reflexivity. Qed.

(** ** The sort *)

Lemma key_leb_le r s : key_leb r s = true <-> key_le r s.
Proof. unfold key_leb, key_le. lia. Qed.

Lemma key_leb_gt r s : key_leb r s = false -> key_le s r.
Proof. unfold key_leb, key_le. lia. Qed.

Lemma key_le_trans r s t : key_le r s -> key_le s t -> key_le r t.
Proof. unfold key_le. lia. Qed.

Lemma insert_row_perm r l : Permutation (r :: l) (insert_row r l).
Proof.
  induction l as [|s l IH]; simpl; [reflexivity|].
  destruct (key_leb r s); [reflexivity|].
  rewrite perm_swap. now apply perm_skip.
Qed.

Lemma sort_values_perm df : Permutation df (sort_values df).
Proof.
  induction df as [|r df IH]; simpl; [constructor|].
  rewrite <- insert_row_perm. now apply perm_skip.
Qed.

Lemma insert_row_sorted r l :
  StronglySorted key_le l -> StronglySorted key_le (insert_row r l).
Proof.
  induction 1 as [|s l Hl IH Hs]; simpl.
  - repeat constructor.
  - destruct (key_leb r s) eqn:E.
    + apply key_leb_le in E. constructor; [now constructor|].
      constructor; [assumption|].
      eapply Forall_impl; [|exact Hs]. intros t Ht.
      eapply key_le_trans; eassumption.
    + apply key_leb_gt in E. constructor; [assumption|].
      eapply Permutation_Forall; [apply insert_row_perm|].
      now constructor.
Qed.

Lemma sort_values_sorted df : StronglySorted key_le (sort_values df).
Proof.
  induction df as [|r df IH]; simpl; [constructor|].
  now apply insert_row_sorted.
Qed.

Lemma sort_values_fixed df : StronglySorted key_le df -> sort_values df = df.
Proof.
  induction 1 as [|r l Hl IH Hr]; simpl; [reflexivity|].
  rewrite IH. destruct l as [|s l]; [reflexivity|]. simpl.
  inversion Hr as [|? ? Hrs _]; subst.
  apply key_leb_le in Hrs. now rewrite Hrs.
Qed.

(** ** Consecutive rows *)

Lemma consecutive_cons_inv a l s t :
  consecutive (a :: l) s t ->
  (s = a /\ exists tl, l = t :: tl) \/ consecutive l s t.
Proof.
  intros [[|b pre] [post E]]; simpl in E; inversion E; subst.
  - left. eauto.
  - right. now exists pre, post.
Qed.

Lemma consecutive_cons a l s t : consecutive l s t -> consecutive (a :: l) s t.
Proof. intros [pre [post ->]]. now exists (a :: pre), post. Qed.

Lemma Sorted_consecutive (R : Row -> Row -> Prop) l s t :
  Sorted R l -> consecutive l s t -> R s t.
Proof.
  induction 1 as [|a l Hl IH Ha]; intros Hc.
  - destruct Hc as [[|? ?] [? E]]; discriminate E.
  - apply consecutive_cons_inv in Hc as [[-> [tl ->]]|Hc].
    + now inversion Ha.
    + now apply IH.
Qed.


(** ** Segments written by the loop *)

Lemma same_start_refl r : same_start r r.
Proof. repeat split. Qed.

Lemma same_start_extend seg row : same_start (extend seg row) seg.
Proof. repeat split. Qed.

Lemma same_start_trans a b c : same_start a b -> same_start b c -> same_start a c.
Proof. unfold same_start. intuition congruence. Qed.

Lemma mergeable_same_start seg s r :
  same_start s r -> mergeable seg s = mergeable seg r.
Proof. unfold mergeable. intros (-> & -> & ->). reflexivity. Qed.

Lemma mergeable_true seg row :
  mergeable seg row = true <->
  left row = right seg /\ population row = population seg
  /\ child row = child seg.
Proof. unfold mergeable. lia. Qed.

Lemma squash_from_head rows : forall seg,
  exists seg' tl, squash_from seg rows = seg' :: tl /\ same_start seg' seg.
Proof.
  induction rows as [|row rest IH]; intros seg; simpl.
  - exists seg, []. split; [reflexivity|apply same_start_refl].
  - destruct (mergeable seg row).
    + destruct (IH (extend seg row)) as (seg' & tl & E & H).
      exists seg', tl. split; [assumption|].
      eapply same_start_trans; [exact H|apply same_start_extend].
    + exists seg, (squash_from row rest).
      split; [reflexivity|apply same_start_refl].
Qed.

Lemma squash_from_starts rows : forall seg s,
  In s (squash_from seg rows) ->
  exists r, In r (seg :: rows) /\ same_start s r.
Proof.
  induction rows as [|row rest IH]; intros seg s; simpl.
  - intros [<-|[]]. exists seg. split; [now left|apply same_start_refl].
  - destruct (mergeable seg row).
    + intros Hs. apply IH in Hs as (r & [<-|Hr] & Hsr).
      * exists seg. split; [now left|].
        eapply same_start_trans; [exact Hsr|apply same_start_extend].
      * exists r. split; [now (right; right)|assumption].
    + intros [<-|Hs].
      * exists seg. split; [now left|apply same_start_refl].
      * apply IH in Hs as (r & Hr & Hsr). exists r. split; [now right|assumption].
Qed.

Section Orders.

Variable R : Row -> Row -> Prop.
Hypothesis R_extend : forall seg row x,
  mergeable seg row = true -> R seg x -> R row x -> R (extend seg row) x.
Hypothesis R_start : forall a s r, same_start s r -> R a r -> R a s.

Lemma squash_from_StronglySorted rows : forall seg,
  StronglySorted R (seg :: rows) -> StronglySorted R (squash_from seg rows).
Proof.
  induction rows as [|row rest IH]; intros seg Hs; simpl.
  - assumption.
  - inversion Hs as [|? ? Hrows Hseg]; subst.
    inversion Hrows as [|? ? Hrest Hrow]; subst.
    destruct (mergeable seg row) eqn:E.
    + apply IH. constructor; [assumption|].
      inversion Hseg as [|? ? _ Hseg']; subst.
      rewrite Forall_forall in *. intros x Hx.
      apply R_extend; auto.
    + constructor; [now apply IH|].
      rewrite Forall_forall in *. intros s Hin.
      apply squash_from_starts in Hin as (r & Hr & Hsr).
      eapply R_start; [exact Hsr|]. now apply Hseg.
Qed.

End Orders.

Lemma squash_rows_key_sorted rows :
  StronglySorted key_le rows -> StronglySorted key_le (squash_rows rows).
Proof.
  destruct rows as [|row rest]; [trivial|]. simpl.
  apply squash_from_StronglySorted.
  - intros seg row' x _ H _. unfold key_le, extend in *. simpl. exact H.
  - intros a s r (Hl & _ & Hc). unfold key_le. rewrite Hl, Hc. trivial.
Qed.

Lemma squash_from_maximal rows : forall seg,
  Sorted unmergeable (squash_from seg rows).
Proof.
  induction rows as [|row rest IH]; intros seg; simpl.
  - repeat constructor.
  - destruct (mergeable seg row) eqn:E; [apply IH|].
    constructor; [apply IH|].
    destruct (squash_from_head rest row) as (row' & tl & -> & H).
    constructor. unfold unmergeable.
    now rewrite (mergeable_same_start seg _ _ H).
Qed.

Lemma squash_rows_maximal rows : Sorted unmergeable (squash_rows rows).
Proof.
  destruct rows; [constructor|apply squash_from_maximal].
Qed.

Lemma squash_from_fixed rows : forall seg,
  Sorted unmergeable (seg :: rows) -> squash_from seg rows = seg :: rows.
Proof.
  induction rows as [|row rest IH]; intros seg Hs; simpl; [reflexivity|].
  inversion Hs as [|? ? Hrows Hseg]; subst.
  inversion Hseg as [|? ? E]; subst. unfold unmergeable in E. rewrite E.
  now rewrite IH.
Qed.

Lemma squash_rows_fixed rows :
  Sorted unmergeable rows -> squash_rows rows = rows.
Proof.
  destruct rows; [reflexivity|apply squash_from_fixed].
Qed.

(** ** The input contract *)

Lemma compatible_sym r s : compatible r s -> compatible s r.
Proof. unfold compatible, clashb. lia. Qed.

Lemma input_contract_spec df :
  input_contract df = true <->
  Forall proper df /\ ForallOrdPairs compatible df.
Proof.
  induction df as [|r df IH]; simpl.
  - split; [intros _; split; constructor|reflexivity].
  - rewrite !andb_true_iff, IH, forallb_forall, Z.ltb_lt. split.
    + intros [[Hr Hc] [Hp Ho]]. split; constructor; try assumption.
      apply Forall_forall. intros s Hs. specialize (Hc s Hs).
      unfold compatible. now destruct (clashb r s).
    + intros [Hp Ho]. inversion Hp; inversion Ho; subst.
      repeat split; try assumption.
      intros s Hs. rewrite Forall_forall in *.
      match goal with H : forall x, In x df -> compatible r x |- _ =>
        rewrite (H s Hs) end. reflexivity.
Qed.

Lemma compatible_overlap r s :
  compatible r s <-> (child r = child s -> ~ overlap r s).
Proof. unfold compatible, clashb, overlap. lia. Qed.

Lemma ForallOrdPairs_nth (D : Row -> Row -> Prop) l :
  (forall r s, D r s -> D s r) ->
  (ForallOrdPairs D l <->
   forall i j r s, i <> j ->
     nth_error l i = Some r -> nth_error l j = Some s -> D r s).
Proof.
  intros Dsym. split.
  - induction 1 as [|a l Ha Hl IH]; intros i j r s Hij Hi Hj.
    + destruct i; discriminate Hi.
    + rewrite Forall_forall in Ha.
      destruct i as [|i], j as [|j]; simpl in Hi, Hj.
      * congruence.
      * inversion Hi; subst. apply Ha. eapply nth_error_In; eassumption.
      * inversion Hj; subst. apply Dsym, Ha.
        eapply nth_error_In; eassumption.
      * apply (IH i j); congruence.
  - induction l as [|a l IH]; intros H; constructor.
    + apply Forall_forall. intros s Hs.
      apply In_nth_error in Hs as [j Hj].
      apply (H 0%nat (S j)); [discriminate|reflexivity|exact Hj].
    + apply IH. intros i j r s Hij Hi Hj.
      apply (H (S i) (S j)); [congruence|exact Hi|exact Hj].
Qed.

(** The contract in the words of the specification: every record has
    [left < right], and no two records of one child, at different places
    of the sequence, overlap. *)
Lemma input_contract_meaning df :
  input_contract df = true <->
  (forall r, In r df -> left r < right r)
  /\ (forall i j r s, i <> j ->
        nth_error df i = Some r -> nth_error df j = Some s ->
        child r = child s -> ~ overlap r s).
Proof.
  rewrite input_contract_spec, Forall_forall.
  rewrite (ForallOrdPairs_nth compatible df compatible_sym).
  split; intros [Hp Ho]; (split; [exact Hp|]); intros i j r s Hij Hi Hj.
  - apply compatible_overlap. eapply Ho; eassumption.
  - apply compatible_overlap. eapply Ho; eassumption.
Qed.

Lemma ForallOrdPairs_perm (D : Row -> Row -> Prop) l l' :
  (forall r s, D r s -> D s r) ->
  Permutation l l' -> ForallOrdPairs D l -> ForallOrdPairs D l'.
Proof.
  intros Dsym. induction 1 as [|x l l' Hp IH|x y l|l l' l'' _ IH1 _ IH2];
    intros Ho.
  - assumption.
  - inversion Ho; subst. constructor; [|now apply IH].
    eapply Permutation_Forall; eassumption.
  - inversion Ho as [|? ? Hy Ho']; subst.
    inversion Ho' as [|? ? Hx Ho'']; subst.
    inversion Hy; subst.
    repeat constructor; auto.
  - auto.
Qed.

Lemma input_contract_perm l l' :
  Permutation l l' -> input_contract l = true -> input_contract l' = true.
Proof.
  intros Hp. rewrite !input_contract_spec. intros [Hpr Ho]. split.
  - eapply Permutation_Forall; eassumption.
  - eapply ForallOrdPairs_perm; [apply compatible_sym| |]; eassumption.
Qed.

(** In key order, rows that respect the contract follow one another without
    overlap, and their keys are all different. *)
Lemma contract_sorted_before l :
  StronglySorted key_le l -> Forall proper l ->
  ForallOrdPairs compatible l ->
  StronglySorted before l /\ StronglySorted key_lt l.
Proof.
  induction 1 as [|r l Hl IH Hr]; intros Hp Ho; [split; constructor|].
  inversion Hp; inversion Ho; subst.
  destruct IH as [IH1 IH2]; [assumption..|].
  assert (Forall (before r) l) as Hb.
  { rewrite Forall_forall in *. intros s Hs.
    match goal with
    | H1 : forall x, In x l -> proper x,
      H2 : forall x, In x l -> compatible r x |- _ =>
        specialize (H1 s Hs); specialize (H2 s Hs) end.
    specialize (Hr s Hs).
    unfold compatible, clashb, proper, key_le, before in *. lia. }
  split; constructor; try assumption.
  rewrite Forall_forall in *. intros s Hs. specialize (Hb s Hs).
  match goal with H : proper r |- _ => unfold proper, before, key_lt in *; lia end.
Qed.

Lemma sort_values_contract df :
  input_contract df = true ->
  Forall proper (sort_values df)
  /\ StronglySorted before (sort_values df)
  /\ StronglySorted key_lt (sort_values df).
Proof.
  intros H.
  apply (input_contract_perm _ _ (sort_values_perm df)) in H.
  apply input_contract_spec in H as [Hp Ho].
  split; [assumption|].
  apply contract_sorted_before; [apply sort_values_sorted|assumption..].
Qed.

Lemma key_lt_asym r s : key_lt r s -> key_lt s r -> False.
Proof. unfold key_lt. lia. Qed.

Lemma key_sorted_unique l1 : forall l2,
  StronglySorted key_lt l1 -> StronglySorted key_lt l2 ->
  Permutation l1 l2 -> l1 = l2.
Proof.
  induction l1 as [|a l1 IH]; intros l2 H1 H2 Hp.
  - apply Permutation_nil in Hp. now subst.
  - destruct l2 as [|b l2].
    + symmetry in Hp. apply Permutation_nil in Hp. discriminate Hp.
    + inversion H1 as [|? ? H1' Ha]; inversion H2 as [|? ? H2' Hb]; subst.
      assert (a = b) as ->.
      { assert (In a (b :: l2)) as [E|Ia]
          by (eapply Permutation_in; [exact Hp|now left]); [now symmetry|].
        assert (In b (a :: l1)) as [E|Ib]
          by (eapply Permutation_in; [symmetry; exact Hp|now left]);
          [assumption|].
        rewrite Forall_forall in *. exfalso.
        eapply key_lt_asym; [apply (Ha b Ib)|apply (Hb a Ia)]. }
      f_equal. apply IH; try assumption.
      eapply Permutation_cons_inv; eassumption.
Qed.

(** ** Coverage *)

Lemma labelled_cons a l c x p :
  labelled (a :: l) c x p <->
  (child a = c /\ population a = p /\ left a <= x < right a)
  \/ labelled l c x p.
Proof.
  unfold labelled. split.
  - intros (r & [<-|Hr] & H); [now left|right; eauto].
  - intros [H|(r & Hr & H)]; [exists a|exists r]; simpl; auto.
Qed.

Lemma labelled_perm l l' c x p :
  Permutation l l' -> labelled l c x p -> labelled l' c x p.
Proof.
  intros Hp (r & Hr & H). exists r. split; [|assumption].
  eapply Permutation_in; eassumption.
Qed.


Lemma squash_from_labelled rows : forall seg,
  Forall (fun r => left r <= right r) (seg :: rows) ->
  forall c x p,
    labelled (squash_from seg rows) c x p <-> labelled (seg :: rows) c x p.
Proof.
  induction rows as [|row rest IH]; intros seg Hle c x p; simpl; [reflexivity|].
  inversion Hle as [|? ? Hseg Hrows]; subst.
  inversion Hrows as [|? ? Hrow Hrest]; subst.
  destruct (mergeable seg row) eqn:E.
  - apply mergeable_true in E as (El & Ep & Ec).
    rewrite IH by (constructor; [simpl; lia|assumption]).
    rewrite !labelled_cons. simpl. intuition lia.
  - rewrite labelled_cons, IH by assumption.
    rewrite <- labelled_cons. reflexivity.
Qed.

Lemma squash_rows_labelled rows :
  Forall (fun r => left r <= right r) rows ->
  forall c x p, labelled (squash_rows rows) c x p <-> labelled rows c x p.
Proof.
  destruct rows; [reflexivity|apply squash_from_labelled].
Qed.

(** ** Following one row through the loop *)

Lemma squash_from_through xs : forall seg r ys,
  exists front seg',
    squash_from seg (xs ++ r :: ys) = front ++ squash_from seg' ys
    /\ same_end seg' r
    /\ (Forall (fun x => left x <= right x) (seg :: xs) ->
        left seg' <= left r).
Proof.
  induction xs as [|x xs IH]; intros seg r ys; simpl.
  - destruct (mergeable seg r) eqn:E.
    + apply mergeable_true in E as (El & Ep & Ec).
      exists [], (extend seg r). split; [reflexivity|]. split.
      * unfold same_end; simpl. auto.
      * intros H. inversion H; subst. simpl. lia.
    + exists [seg], r. split; [reflexivity|].
      split; [repeat split|intros _; lia].
  - destruct (mergeable seg x) eqn:E.
    + destruct (IH (extend seg x) r ys) as (front & seg' & Eq & H & Hl).
      exists front, seg'. split; [assumption|]. split; [assumption|].
      intros Hle. apply Hl.
      apply mergeable_true in E as (El & _ & _).
      inversion Hle as [|? ? Hseg Hxs]; subst.
      inversion Hxs as [|? ? Hx Hxs']; subst.
      constructor; [simpl; lia|assumption].
    + destruct (IH x r ys) as (front & seg' & Eq & H & Hl).
      exists (seg :: front), seg'. rewrite Eq.
      split; [reflexivity|]. split; [assumption|].
      intros Hle. apply Hl. now inversion Hle.
Qed.

Lemma squash_rows_through xs r ys :
  exists front seg',
    squash_rows (xs ++ r :: ys) = front ++ squash_from seg' ys
    /\ same_end seg' r
    /\ (Forall (fun x => left x <= right x) xs -> left seg' <= left r).
Proof.
  destruct xs as [|x xs]; simpl.
  - exists [], r. split; [reflexivity|].
    split; [repeat split|intros _; lia].
  - destruct (squash_from_through xs x r ys) as (front & seg' & E & H & Hl).
    exists front, seg'. split; [assumption|]. split; [assumption|].
    intros Hle. now apply Hl.
Qed.

Lemma squash_from_head_right rows : forall seg,
  Forall (fun x => left x <= right x) rows ->
  exists s tl,
    squash_from seg rows = s :: tl /\ same_start s seg
    /\ right seg <= right s.
Proof.
  induction rows as [|row rest IH]; intros seg Hle; simpl.
  - exists seg, []. split; [reflexivity|].
    split; [apply same_start_refl|lia].
  - inversion Hle as [|? ? Hrow Hrest]; subst.
    destruct (mergeable seg row) eqn:E.
    + apply mergeable_true in E as (El & _ & _).
      destruct (IH (extend seg row) Hrest) as (s & tl & Eq & H & Hr).
      exists s, tl. split; [assumption|]. split.
      * eapply same_start_trans; [exact H|apply same_start_extend].
      * simpl in Hr. lia.
    + exists seg, (squash_from row rest). split; [reflexivity|].
      split; [apply same_start_refl|lia].
Qed.

(** Two touching neighbours of one child and population end up in one
    segment. *)
Lemma squash_rows_joins pre r1 r2 post :
  Forall (fun x => left x <= right x) (pre ++ r1 :: r2 :: post) ->
  child r1 = child r2 -> right r1 = left r2 ->
  population r1 = population r2 ->
  exists s,
    In s (squash_rows (pre ++ r1 :: r2 :: post))
    /\ child s = child r1 /\ population s = population r1
    /\ left s <= left r1 /\ right r2 <= right s.
Proof.
  intros Hle Hc Ht Hp.
  apply Forall_app in Hle as [Hpre Hrest].
  inversion Hrest as [|? ? H1 Hrest']; subst.
  inversion Hrest' as [|? ? H2 Hpost]; subst.
  destruct (squash_rows_through pre r1 (r2 :: post))
    as (front & seg & E & (Hsr & Hsp & Hsc) & Hl).
  specialize (Hl Hpre). simpl in E.
  assert (mergeable seg r2 = true) as M
    by (apply mergeable_true; repeat split; congruence).
  rewrite M in E.
  destruct (squash_from_head_right post (extend seg r2) Hpost)
    as (s & tl & Es & (Hsl & Hspop & Hsch) & Hright).
  rewrite Es in E. exists s. simpl in *. split.
  - rewrite E. apply in_or_app. right. now left.
  - repeat split; try congruence; lia.
Qed.

Lemma StronglySorted_app_inv (R : Row -> Row -> Prop) pre a rest :
  StronglySorted R (pre ++ a :: rest) ->
  Forall (fun x => R x a) pre /\ StronglySorted R (a :: rest).
Proof.
  induction pre as [|x pre IH]; simpl; intros H.
  - split; [constructor|assumption].
  - inversion H as [|? ? H' Hx]; subst.
    destruct (IH H') as [IH1 IH2]. split; [|assumption].
    constructor; [|assumption].
    rewrite Forall_forall in Hx. apply Hx.
    apply in_or_app. right. now left.
Qed.

(** Under the contract two touching records of one child are neighbours in
    key order. *)
Lemma touching_rows_consecutive l r1 r2 :
  Forall proper l -> StronglySorted before l ->
  In r1 l -> In r2 l -> child r1 = child r2 -> right r1 = left r2 ->
  consecutive l r1 r2.
Proof.
  intros Hp Hs H1 H2 Hc Ht.
  assert (proper r1) as P1 by (rewrite Forall_forall in Hp; auto).
  assert (proper r2) as P2 by (rewrite Forall_forall in Hp; auto).
  apply in_split in H1 as (pre & rest & ->).
  apply StronglySorted_app_inv in Hs as [Hpre Hs].
  inversion Hs as [|? ? Hrest Hr1]; subst.
  rewrite Forall_forall in Hpre, Hr1.
  apply in_app_or in H2 as [H2|[H2|H2]].
  - specialize (Hpre _ H2). unfold before, proper in *. lia.
  - subst. unfold proper in *. lia.
  - destruct rest as [|y post]; [destruct H2|].
    destruct H2 as [->|H2]; [now exists pre, post|].
    exfalso. inversion Hrest as [|? ? _ Hy]; subst.
    rewrite Forall_forall in Hy.
    assert (proper y) as Py.
    { rewrite Forall_forall in Hp. apply Hp.
      apply in_or_app. right. right. now left. }
    specialize (Hy _ H2). specialize (Hr1 y (or_introl eq_refl)).
    unfold before, proper in *. lia.
Qed.


(** ** A record alone in its child *)

Lemma filter_nil_Forall (f : Row -> bool) l :
  filter f l = [] -> Forall (fun x => f x = false) l.
Proof.
  induction l as [|a l IH]; simpl; [constructor|].
  destruct (f a) eqn:E; [discriminate|]. intros H. constructor; auto.
Qed.

Lemma Permutation_filter (f : Row -> bool) l l' :
  Permutation l l' -> Permutation (filter f l) (filter f l').
Proof.
  induction 1 as [|x l l' _ IH|x y l|l l' l'' _ IH1 _ IH2]; simpl.
  - constructor.
  - destruct (f x); [now apply perm_skip|assumption].
  - destruct (f x), (f y); try reflexivity. apply perm_swap.
  - etransitivity; eassumption.
Qed.

Lemma only_record_perm l l' z :
  Permutation l l' -> only_record_of_child l z -> only_record_of_child l' z.
Proof.
  intros Hp [Hin Hlen]. split.
  - eapply Permutation_in; eassumption.
  - rewrite <- Hlen. symmetry. apply Permutation_length.
    now apply Permutation_filter.
Qed.

Lemma only_record_split l z :
  only_record_of_child l z ->
  exists pre post, l = pre ++ z :: post
    /\ Forall (fun x => child x <> child z) pre
    /\ Forall (fun x => child x <> child z) post.
Proof.
  intros [Hin Hlen]. apply in_split in Hin as (pre & post & ->).
  exists pre, post. split; [reflexivity|].
  rewrite filter_app in Hlen. simpl in Hlen.
  rewrite Z.eqb_refl, length_app in Hlen. simpl in Hlen.
  assert (filter (fun s => child s =? child z) pre = []) as E1
    by (apply length_zero_iff_nil; lia).
  assert (filter (fun s => child s =? child z) post = []) as E2
    by (apply length_zero_iff_nil; lia).
  apply filter_nil_Forall in E1, E2.
  split; (eapply Forall_impl; [|eassumption]); simpl; intros x Hx; lia.
Qed.

Lemma squash_from_keeps z ys :
  Forall (fun y => child y <> child z) ys ->
  exists tl, squash_from z ys = z :: tl.
Proof.
  destruct ys as [|y ys]; simpl; [now exists []|].
  intros H. inversion H as [|? ? Hy _]; subst.
  assert (mergeable z y = false) as -> by (unfold mergeable; lia).
  eauto.
Qed.

Lemma squash_from_other_child xs : forall seg z ys,
  child seg <> child z -> Forall (fun x => child x <> child z) xs ->
  exists front, squash_from seg (xs ++ z :: ys) = front ++ squash_from z ys.
Proof.
  induction xs as [|x xs IH]; intros seg z ys Hseg Hxs; simpl.
  - assert (mergeable seg z = false) as -> by (unfold mergeable; lia).
    now exists [seg].
  - inversion Hxs as [|? ? Hx Hxs']; subst.
    destruct (mergeable seg x).
    + apply IH; assumption.
    + destruct (IH x z ys Hx Hxs') as (front & ->). now exists (seg :: front).
Qed.

Lemma squash_rows_keeps_only_record rows z :
  only_record_of_child rows z -> In z (squash_rows rows).
Proof.
  intros H. apply only_record_split in H as (pre & post & -> & Hpre & Hpost).
  destruct (squash_from_keeps z post Hpost) as (tl & Etl).
  destruct pre as [|x pre]; simpl.
  - rewrite Etl. now left.
  - inversion Hpre as [|? ? Hx Hpre']; subst.
    destruct (squash_from_other_child pre x z post Hx Hpre') as (front & ->).
    rewrite Etl. apply in_or_app. right. now left.
Qed.

Lemma squash_rows_nonempty rows : rows <> [] -> squash_rows rows <> [].
Proof.
  destruct rows as [|row rest]; [congruence|]. intros _. simpl.
  destruct (squash_from_head rest row) as (s & tl & -> & _). discriminate.
Qed.

Lemma sort_values_nonempty df : df <> [] -> sort_values df <> [].
Proof.
  intros H E. apply H. apply Permutation_nil.
  rewrite <- E. symmetry. apply sort_values_perm.
Qed.

(** ** Order of the output under the contract *)

Lemma squash_from_proper rows : forall seg,
  Forall proper (seg :: rows) -> Forall proper (squash_from seg rows).
Proof.
  induction rows as [|row rest IH]; intros seg H; simpl; [assumption|].
  inversion H as [|? ? Hseg Hrows]; subst.
  inversion Hrows as [|? ? Hrow Hrest]; subst.
  destruct (mergeable seg row) eqn:E.
  - apply mergeable_true in E as (El & _ & _).
    apply IH. constructor; [|assumption].
    unfold proper in *. simpl. lia.
  - constructor; [assumption|now apply IH].
Qed.

Lemma squash_rows_proper rows :
  Forall proper rows -> Forall proper (squash_rows rows).
Proof.
  destruct rows; [trivial|apply squash_from_proper].
Qed.

Lemma squash_rows_before rows :
  StronglySorted before rows -> StronglySorted before (squash_rows rows).
Proof.
  destruct rows as [|row rest]; [trivial|]. simpl.
  apply squash_from_StronglySorted.
  - intros seg row' x E _ H. apply mergeable_true in E as (_ & _ & Ec).
    unfold before, extend in *. simpl. lia.
  - intros a s r (Hl & _ & Hc). unfold before. rewrite Hl, Hc. trivial.
Qed.


Lemma StronglySorted_weaken (R R' : Row -> Row -> Prop) l :
  (forall r s, R r s -> R' r s) -> StronglySorted R l -> StronglySorted R' l.
Proof.
  intros HR. induction 1 as [|a l Hl IH Ha]; constructor; [assumption|].
  eapply Forall_impl; [|exact Ha]. auto.
Qed.

(** In a frame in child order the rows of one child form a block, so
    neighbours in the group are neighbours in the frame. *)
Lemma group_consecutive c l : StronglySorted child_le l ->
  forall s t, consecutive (group c l) s t -> consecutive l s t.
Proof.
  induction 1 as [|a l Hl IH Ha]; intros s t Hc; simpl in Hc.
  - destruct Hc as [[|? ?] [? E]]; discriminate E.
  - unfold group in Hc. simpl in Hc. destruct (child a =? c) eqn:Ea.
    + apply consecutive_cons_inv in Hc as [[-> [tl Etl]]|Hc].
      * destruct l as [|b l]; [discriminate Etl|].
        simpl in Etl. destruct (child b =? c) eqn:Eb.
        -- inversion Etl; subst. now exists [], l.
        -- exfalso.
           assert (In t (filter (fun r => child r =? c) l)) as Ht
             by (rewrite Etl; now left).
           apply filter_In in Ht as [Ht Hct].
           inversion Hl as [|? ? _ Hb]; subst.
           rewrite Forall_forall in Ha, Hb.
           specialize (Ha b (or_introl eq_refl)). specialize (Hb t Ht).
           unfold child_le in *. lia.
      * apply consecutive_cons. now apply IH.
    + apply consecutive_cons. now apply IH.
Qed.

Lemma consecutive_In l s t : consecutive l s t -> In s l /\ In t l.
Proof.
  intros (pre & post & ->). split; apply in_or_app; right; simpl; auto.
Qed.


(** ** The frame as the loop reads it *)

Lemma as_float_fixed r : held_exactly (child r) -> held_exactly (population r) -> as_float r = r.
Proof.
  destruct r as [l r p c]. unfold held_exactly, as_float. simpl.
  intros -> ->. reflexivity.
Qed.

Lemma map_fixed (f : Row -> Row) l :
  (forall r, In r l -> f r = r) -> map f l = l.
Proof.
  induction l as [|a l IH]; intros H; simpl; [reflexivity|].
  rewrite H by now left. rewrite IH; [reflexivity|].
  intros r Hr. apply H. now right.
Qed.

Lemma exact_ids_children l : exact_ids l -> exact_children l.
Proof. apply Forall_impl. now intros r [H _]. Qed.

Lemma exact_ids_fixed l : exact_ids l -> map as_float l = l.
Proof.
  intros H. apply map_fixed. intros r Hr.
  unfold exact_ids in H. rewrite Forall_forall in H.
  destruct (H r Hr). now apply as_float_fixed.
Qed.

Lemma frame_fixed df : exact_ids df -> frame df = sort_values df.
Proof.
  intros H. apply exact_ids_fixed.
  eapply Permutation_Forall; [apply sort_values_perm|exact H].
Qed.

Lemma frame_perm df : Permutation (map as_float df) (frame df).
Proof. apply Permutation_map, sort_values_perm. Qed.

Lemma frame_nonempty df : df <> [] -> frame df <> [].
Proof.
  intros H E. apply (sort_values_nonempty df H).
  eapply map_eq_nil. exact E.
Qed.

Lemma frame_In df s :
  In s (frame df) <-> exists r, In r df /\ s = as_float r.
Proof.
  unfold frame. rewrite in_map_iff. split; intros (r & H1 & H2).
  - exists r. split; [|now symmetry].
    eapply Permutation_in; [symmetry; apply sort_values_perm|exact H2].
  - exists r. split; [now symmetry|].
    eapply Permutation_in; [apply sort_values_perm|exact H1].
Qed.

Lemma frame_left_right (P : Z -> Z -> Prop) df :
  Forall (fun r => P (left r) (right r)) df ->
  Forall (fun r => P (left r) (right r)) (frame df).
Proof.
  rewrite !Forall_forall. intros H s Hs.
  apply frame_In in Hs as (r & Hr & ->). simpl. now apply H.
Qed.

Lemma StronglySorted_as_float (R R' : Row -> Row -> Prop) l :
  (forall r s, In r l -> In s l -> R r s -> R' (as_float r) (as_float s)) ->
  StronglySorted R l -> StronglySorted R' (map as_float l).
Proof.
  intros HR H. induction H as [|a l Hl IH Ha]; simpl; constructor.
  - apply IH. intros r s Hr Hs. apply HR; now right.
  - rewrite Forall_forall in *. intros s Hs.
    apply in_map_iff in Hs as (r & <- & Hr).
    apply HR; [now left|now right|now apply Ha].
Qed.

(** The conversion keeps the children in ascending order, whatever they
    are. *)
Lemma frame_child_sorted df : StronglySorted child_le (frame df).
Proof.
  apply (StronglySorted_as_float key_le); [|apply sort_values_sorted].
  intros r s _ _ H. unfold child_le, key_le in *. simpl.
  apply float64_monotone. lia.
Qed.

(** With exact child identifiers an order on [(child, left, right)] is
    kept as it is. *)
Lemma frame_sorted_as (R : Row -> Row -> Prop) df :
  (forall r s, held_exactly (child r) -> held_exactly (child s) ->
     R r s -> R (as_float r) (as_float s)) ->
  exact_children df ->
  StronglySorted R (sort_values df) -> StronglySorted R (frame df).
Proof.
  intros HR He. apply StronglySorted_as_float.
  assert (Forall (fun r => held_exactly (child r)) (sort_values df)) as Hs
    by (eapply Permutation_Forall; [apply sort_values_perm|exact He]).
  rewrite Forall_forall in Hs. intros r s Hr Hs'. apply HR; auto.
Qed.

Lemma frame_key_sorted df :
  exact_children df -> StronglySorted key_le (frame df).
Proof.
  intros He. apply frame_sorted_as; [|exact He|apply sort_values_sorted].
  unfold held_exactly, key_le. simpl. intros r s -> ->. trivial.
Qed.


Lemma squash_rows_child_sorted rows :
  StronglySorted child_le rows -> StronglySorted child_le (squash_rows rows).
Proof.
  destruct rows as [|row rest]; [trivial|]. simpl.
  apply squash_from_StronglySorted.
  - intros seg row' x _ H _. unfold child_le, extend in *. simpl. exact H.
  - intros a s r (_ & _ & Hc). unfold child_le. rewrite Hc. trivial.
Qed.

Lemma squash_rows_starts rows s :
  In s (squash_rows rows) -> exists r, In r rows /\ same_start s r.
Proof.
  destruct rows as [|row rest]; [intros []|apply squash_from_starts].
Qed.

(** The segments hold [float64] identifiers, which a second reading leaves
    as they are. *)
Lemma frame_segments_fixed df :
  map as_float (squash_rows (frame df)) = squash_rows (frame df).
Proof.
  apply map_fixed. intros s Hs.
  apply squash_rows_starts in Hs as (r & Hr & _ & Hp & Hc).
  apply frame_In in Hr as (r0 & _ & ->). simpl in Hp, Hc.
  apply as_float_fixed; unfold held_exactly.
  - rewrite Hc. apply float64_idempotent.
  - rewrite Hp. apply float64_idempotent.
Qed.

Lemma squash_frame_labelled df :
  Forall (fun r => left r <= right r) df ->
  forall c x p,
    labelled (squash_rows (frame df)) c x p
    <-> labelled (map as_float df) c x p.
Proof.
  intros H c x p. rewrite squash_rows_labelled.
  - split; apply labelled_perm; [symmetry|]; apply frame_perm.
  - now apply (frame_left_right (fun l r => l <= r)).
Qed.


(** Under the contract two touching records of one child are neighbours
    of the frame the loop reads. *)
Lemma touching_rows_read df r1 r2 :
  input_contract df = true -> In r1 df -> In r2 df ->
  child r1 = child r2 -> right r1 = left r2 ->
  exists pre post,
    frame df = pre ++ as_float r1 :: as_float r2 :: post.
Proof.
  intros H H1 H2 Hc Ht.
  apply sort_values_contract in H as (Hpr & Hb & _).
  assert (consecutive (sort_values df) r1 r2) as (pre & post & E).
  { apply touching_rows_consecutive; try assumption;
      (eapply Permutation_in; [apply sort_values_perm|assumption]). }
  exists (map as_float pre), (map as_float post).
  unfold frame. rewrite E, map_app. reflexivity.
Qed.

(** ** Properties of the merger *)

(** C1 (maximal merge).  On an input that respects the contract the cell
    returns a table in which no two consecutive segments of the same child
    have [right s = left t] together with the same population, whether
    "consecutive" is read in the whole table or inside the child's group;
    and two input records of one child and population that touch are
    written as part of one segment, never as two.  The segment carries
    their child and population as [float64] holds them. *)
Theorem maximal_merge df :
  input_contract df = true ->
  exists out,
    squashed_ancestry_table df = Ok out
    /\ (forall s t, consecutive out s t -> child s = child t ->
          ~ (right s = left t /\ population s = population t))
    /\ (forall c s t, consecutive (group c out) s t ->
          ~ (right s = left t /\ population s = population t))
    /\ (forall r1 r2, In r1 df -> In r2 df ->
          child r1 = child r2 -> right r1 = left r2 ->
          population r1 = population r2 ->
          exists s, In s out /\ child s = float64 (child r1)
                    /\ population s = float64 (population r1)
                    /\ left s <= left r1 /\ right r2 <= right s).
Proof.
  intros H. exists (squash_rows (frame df)).
  split; [apply squashed_ancestry_table_eq|].
  assert (forall s t, consecutive (squash_rows (frame df)) s t ->
            child s = child t ->
            ~ (right s = left t /\ population s = population t)) as Hmax.
  { intros s t Hc Hch [Hr Hp].
    apply (Sorted_consecutive unmergeable) in Hc;
      [|apply squash_rows_maximal].
    unfold unmergeable, mergeable in Hc. lia. }
  split; [exact Hmax|]. split.
  - intros c s t Hc. pose proof (consecutive_In _ _ _ Hc) as [Hs Ht].
    apply filter_In in Hs as [_ Hs], Ht as [_ Ht].
    apply Hmax; [|lia].
    eapply group_consecutive; [|exact Hc].
    apply squash_rows_child_sorted, frame_child_sorted.
  - intros r1 r2 H1 H2 Hc Ht Hp.
    destruct (touching_rows_read df r1 r2 H H1 H2 Hc Ht) as (pre & post & E).
    assert (Forall (fun r => left r <= right r) (frame df)) as Hle.
    { apply (frame_left_right (fun l r => l <= r)).
      apply input_contract_spec in H as [Hpr _].
      eapply Forall_impl; [|exact Hpr]. unfold proper. intros r. lia. }
    rewrite E in *.
    destruct (squash_rows_joins pre (as_float r1) (as_float r2) post Hle)
      as (s & Hs & Hsc & Hsp & Hsl & Hsr); simpl; try congruence.
    exists s. simpl in *. auto.
Qed.

Lemma maximal_merge_witness :
  input_contract sample_input = true
  /\ exists out,
       squashed_ancestry_table sample_input = Ok out
       /\ (forall s t, consecutive out s t -> child s = child t ->
             ~ (right s = left t /\ population s = population t))
       /\ (forall c s t, consecutive (group c out) s t ->
             ~ (right s = left t /\ population s = population t))
       /\ (forall r1 r2, In r1 sample_input -> In r2 sample_input ->
             child r1 = child r2 -> right r1 = left r2 ->
             population r1 = population r2 ->
             exists s, In s out /\ child s = float64 (child r1)
                       /\ population s = float64 (population r1)
                       /\ left s <= left r1 /\ right r2 <= right s).
Proof.
  split; [reflexivity|apply (maximal_merge sample_input); reflexivity].
Defined.

(** C2, as the specification states it, fails: the two overlapping records
    of its Example 4 are accepted and both returned. *)
Lemma overlapping_records_accepted :
  let r := mkRow 0 5 popA 0 in
  let s := mkRow 3 8 popA 0 in
  child r = child s /\ overlap r s
  /\ squashed_ancestry_table [r; s] = Ok [r; s].
Proof. unfold overlap. simpl. repeat split; lia. Qed.

(** C2 (amended).  The cell has no check for overlapping records: on an
    input in which two records of one child overlap it raises nothing and
    returns a table with at least one segment; when every record has
    [left <= right] the table reports, at each position, exactly the
    children and populations the input reports there once its identifiers
    are converted to [float64], so the conflicting reports are all still
    present. *)
Theorem overlap_not_rejected df i j r s :
  i <> j -> nth_error df i = Some r -> nth_error df j = Some s ->
  child r = child s -> overlap r s ->
  exists out,
    squashed_ancestry_table df = Ok out /\ out <> []
    /\ (Forall (fun r => left r <= right r) df ->
        forall c x p,
          labelled out c x p <-> labelled (map as_float df) c x p).
Proof.
  intros _ Hi _ _ _. exists (squash_rows (frame df)).
  split; [apply squashed_ancestry_table_eq|]. split.
  - apply squash_rows_nonempty, frame_nonempty.
    intros ->. destruct i; discriminate Hi.
  - apply squash_frame_labelled.
Qed.

Lemma overlap_not_rejected_witness :
  let r := mkRow 0 5 popA 0 in
  let s := mkRow 3 8 popA 0 in
  (child r = child s /\ overlap r s)
  /\ exists out,
       squashed_ancestry_table [r; s] = Ok out /\ out <> []
       /\ (Forall (fun r => left r <= right r) [r; s] ->
           forall c x p,
             labelled out c x p <-> labelled (map as_float [r; s]) c x p).
Proof.
  assert (overlap (mkRow 0 5 popA 0) (mkRow 3 8 popA 0)) as Ho
    by (unfold overlap; simpl; lia).
  split; [split; [reflexivity|exact Ho]|].
  apply (overlap_not_rejected [mkRow 0 5 popA 0; mkRow 3 8 popA 0]
           0%nat 1%nat (mkRow 0 5 popA 0) (mkRow 3 8 popA 0)).
  - discriminate.
  - reflexivity.
  - reflexivity.
  - reflexivity.
  - exact Ho.
Defined.

(** C3, as the specification states it, fails: [sort_values] works in
    place, so after the cell has run on the input of Example 3 the variable
    [local_ancestry] holds the records in another order. *)
Lemma input_sorted_in_place :
  let df := [mkRow 3 4 popA 1; mkRow 0 2 popB 0] in
  exists g out,
    run_cell df = Ok (g, out) /\ local_ancestry g <> df.
Proof.
  simpl. eexists. eexists. split; [reflexivity|]. simpl. discriminate.
Qed.

(** C3 (amended).  The cell always returns, and its table is determined by
    the input alone, but the input does not survive it: afterwards
    [local_ancestry] holds the same records in ascending [(child, left)]
    order, which is the input itself exactly when the input was already in
    that order; the four accumulator lists hold the columns of the table. *)
Theorem input_replaced_by_sorted df :
  exists g out,
    run_cell df = Ok (g, out)
    /\ squashed_ancestry_table df = Ok out
    /\ local_ancestry g = sort_values df
    /\ Permutation df (local_ancestry g)
    /\ StronglySorted key_le (local_ancestry g)
    /\ (local_ancestry g = df <-> StronglySorted key_le df)
    /\ new_sample g = map child out /\ new_left g = map left out
    /\ new_right g = map right out
    /\ new_population g = map population out.
Proof.
  exists (columns (sort_values df) (squash_rows (frame df))),
         (squash_rows (frame df)).
  split; [apply run_cell_eq|].
  split; [apply squashed_ancestry_table_eq|]. simpl.
  split; [reflexivity|].
  split; [apply sort_values_perm|].
  split; [apply sort_values_sorted|].
  split; [|repeat split].
  split.
  - intros <-. apply sort_values_sorted.
  - apply sort_values_fixed.
Qed.

(** C4, as the specification states it, fails: a zero-length record is
    accepted; alone it is passed through, and after a touching record of the
    same child and population it is merged away. *)
Lemma zero_length_accepted :
  squashed_ancestry_table [mkRow 3 3 popA 0] = Ok [mkRow 3 3 popA 0]
  /\ squashed_ancestry_table [mkRow 0 5 popA 0; mkRow 5 5 popA 0]
     = Ok [mkRow 0 5 popA 0].
Proof. split; reflexivity. Qed.

(** C4 (amended).  The cell has no check for zero-length records: on an
    input that contains one it raises nothing and returns a table with at
    least one segment.  A zero-length record whose child, converted to
    [float64], is the child of no other record is passed through as a
    segment, with its two identifiers converted to [float64]; so it is
    passed through unchanged when it is the only record of its child and
    the child identifiers of the input and its own population are held
    exactly. *)
Theorem zero_length_not_rejected df z :
  In z df -> zero_length z = true ->
  exists out,
    squashed_ancestry_table df = Ok out /\ out <> []
    /\ (only_record_of_child (map as_float df) (as_float z) ->
        In (as_float z) out)
    /\ (exact_children df -> held_exactly (population z) ->
        only_record_of_child df z -> In z out).
Proof.
  intros Hin _. exists (squash_rows (frame df)).
  split; [apply squashed_ancestry_table_eq|].
  assert (only_record_of_child (map as_float df) (as_float z) ->
          In (as_float z) (squash_rows (frame df))) as Hgen.
  { intros H. apply squash_rows_keeps_only_record.
    eapply only_record_perm; [apply frame_perm|exact H]. }
  split; [|split; [exact Hgen|]].
  - apply squash_rows_nonempty, frame_nonempty.
    intros ->. destruct Hin.
  - intros He Hp [_ Hlen].
    assert (held_exactly (child z)) as Hz
      by (unfold exact_children in He; rewrite Forall_forall in He; auto).
    assert (as_float z = z) as Ez by now apply as_float_fixed.
    rewrite <- Ez. apply Hgen. split; [now apply in_map|].
    rewrite Ez, <- Hlen. clear Hlen Hgen Hin.
    induction He as [|r l Hr _ IH]; simpl; [reflexivity|].
    unfold held_exactly in Hr. rewrite Hr.
    destruct (child r =? child z); simpl; now rewrite IH.
Qed.

Lemma zero_length_not_rejected_witness :
  let df := [mkRow 0 5 popA 0; mkRow 3 3 popA 1] in
  let z := mkRow 3 3 popA 1 in
  In z df /\ zero_length z = true
  /\ exists out,
       squashed_ancestry_table df = Ok out /\ out <> []
       /\ (only_record_of_child (map as_float df) (as_float z) ->
           In (as_float z) out)
       /\ (exact_children df -> held_exactly (population z) ->
           only_record_of_child df z -> In z out).
Proof.
  simpl. split; [auto|]. split; [reflexivity|].
  apply (zero_length_not_rejected
           [mkRow 0 5 popA 0; mkRow 3 3 popA 1] (mkRow 3 3 popA 1)).
  - simpl. auto.
  - reflexivity.
Defined.







(** C7 (order independence).  On an input that respects the contract the
    cell returns the same table, segment for segment and in the same order,
    for every permutation of the input. *)
Theorem order_independent df df' :
  input_contract df = true -> Permutation df df' ->
  exists out,
    squashed_ancestry_table df = Ok out
    /\ squashed_ancestry_table df' = Ok out.
Proof.
  intros H Hp. exists (squash_rows (frame df)).
  split; [apply squashed_ancestry_table_eq|].
  rewrite squashed_ancestry_table_eq.
  pose proof (input_contract_perm _ _ Hp H) as H'.
  apply sort_values_contract in H as (_ & _ & Hs).
  apply sort_values_contract in H' as (_ & _ & Hs').
  unfold frame.
  assert (sort_values df' = sort_values df) as ->; [|reflexivity].
  apply key_sorted_unique; try assumption.
  rewrite <- (sort_values_perm df), <- (sort_values_perm df').
  now symmetry.
Qed.

Lemma order_independent_witness :
  input_contract sample_input = true
  /\ Permutation sample_input (rev sample_input)
  /\ exists out,
       squashed_ancestry_table sample_input = Ok out
       /\ squashed_ancestry_table (rev sample_input) = Ok out.
Proof.
  split; [reflexivity|]. split; [apply Permutation_rev|].
  apply (order_independent sample_input (rev sample_input));
    [reflexivity|apply Permutation_rev].
Defined.









(** ** Further properties of the merger *)

Lemma mergeable_same_end seg r row :
  same_end seg r -> mergeable seg row = mergeable r row.
Proof. unfold mergeable. intros (-> & -> & ->). reflexivity. Qed.

Lemma merge_count_cons r s rest :
  merge_count (r :: s :: rest)
  = ((if mergeable r s then 1 else 0) + merge_count (s :: rest))%nat.
Proof. reflexivity. Qed.

Lemma squash_from_length rows : forall seg r,
  same_end seg r ->
  (length (squash_from seg rows) + merge_count (r :: rows)
   = S (length rows))%nat.
Proof.
  induction rows as [|row rest IH]; intros seg r H; [reflexivity|].
  rewrite merge_count_cons. cbn [squash_from length].
  rewrite <- (mergeable_same_end seg r row H).
  destruct (mergeable seg row) eqn:E.
  - apply mergeable_true in E as (_ & Ep & Ec).
    assert (same_end (extend seg row) row) as H'
      by (unfold same_end; simpl; auto).
    specialize (IH (extend seg row) row H'). lia.
  - assert (same_end row row) as H' by (repeat split).
    specialize (IH row row H'). cbn [length]. lia.
Qed.

Lemma squash_rows_length rows :
  (length (squash_rows rows) + merge_count rows = length rows)%nat.
Proof.
  destruct rows as [|row rest]; [reflexivity|].
  apply squash_from_length. repeat split.
Qed.

Lemma map_snd_combine_seq (rows : list Row) : forall k,
  map snd (combine (seq k (length rows)) rows) = rows.
Proof.
  induction rows as [|r rows IH]; intros k; simpl; [reflexivity|].
  now rewrite IH.
Qed.

Lemma iterrows_rows df : map snd (iterrows df) = map as_float df.
Proof.
  unfold iterrows. rewrite <- (length_map as_float df).
  apply map_snd_combine_seq.
Qed.

(** X1 (the cell never raises; size of the table).  For every input the
    cell returns: the guard [ind > 0] keeps [xs[-1]] away from the empty
    lists and the four columns have one length.  The table has one segment
    per record less one per row that, among the rows [iterrows] yields for
    the sorted frame the cell leaves in [local_ancestry], is mergeable with
    the row just before it; so it never has more segments than the input
    has records, and it is empty only for the empty input. *)
Theorem cell_returns_and_size df :
  exists g out,
    run_cell df = Ok (g, out)
    /\ (length out + merge_count (map snd (iterrows (local_ancestry g)))
        = length df)%nat
    /\ (length out <= length df)%nat
    /\ (out = [] <-> df = []).
Proof.
  exists (columns (sort_values df) (squash_rows (frame df))),
         (squash_rows (frame df)).
  split; [apply run_cell_eq|]. cbn [columns local_ancestry].
  rewrite iterrows_rows. fold (frame df).
  pose proof (squash_rows_length (frame df)) as Hl.
  unfold frame in Hl at 3. rewrite length_map in Hl.
  rewrite <- (Permutation_length (sort_values_perm df)) in Hl.
  split; [exact Hl|]. split; [lia|]. split.
  - intros E. destruct df as [|r df]; [reflexivity|]. exfalso.
    apply (squash_rows_nonempty (frame (r :: df)));
      [apply frame_nonempty; discriminate|exact E].
  - intros ->. reflexivity.
Qed.

Lemma all_consecutive_Sorted (R : Row -> Row -> Prop) l :
  (forall s t, consecutive l s t -> R s t) -> Sorted R l.
Proof.
  induction l as [|a l IH]; intros H; constructor.
  - apply IH. intros s t Hc. apply H. now apply consecutive_cons.
  - destruct l as [|b l]; constructor. apply H. now exists [], l.
Qed.

Lemma fixed_exact_ids l : map as_float l = l -> exact_ids l.
Proof.
  induction l as [|r l IH]; simpl; intros E; [constructor|].
  injection E as Er El. constructor; [|now apply IH].
  destruct r as [l0 r0 p c]. unfold as_float in Er. simpl in Er.
  injection Er as Hp Hc. unfold held_exactly. simpl. split; assumption.
Qed.

(** X2 (the tables the cell leaves alone).  The cell returns its input
    unchanged exactly when the child and population identifiers of the
    input are held exactly by [float64], the input is in ascending
    [(child, left)] order, and no row starts where the row before it ends
    with the same child and population. *)
Theorem unchanged_iff_squashed df :
  squashed_ancestry_table df = Ok df <->
  exact_ids df
  /\ StronglySorted key_le df
  /\ (forall s t, consecutive df s t ->
        ~ (left t = right s /\ population t = population s
           /\ child t = child s)).
Proof.
  rewrite squashed_ancestry_table_eq. split.
  - intros E. injection E as E'.
    assert (exact_ids df) as He.
    { apply fixed_exact_ids. rewrite <- E' at 1 2.
      rewrite frame_segments_fixed. reflexivity. }
    split; [exact He|]. split.
    + rewrite <- E'. apply squash_rows_key_sorted, frame_key_sorted.
      now apply exact_ids_children.
    + intros s t Hc Hm. apply mergeable_true in Hm.
      rewrite <- E' in Hc.
      apply (Sorted_consecutive unmergeable) in Hc;
        [|apply squash_rows_maximal].
      unfold unmergeable in Hc. congruence.
  - intros (He & Hs & Hm).
    rewrite (frame_fixed df He), (sort_values_fixed df Hs).
    rewrite squash_rows_fixed; [reflexivity|].
    apply all_consecutive_Sorted. intros s t Hc. unfold unmergeable.
    destruct (mergeable s t) eqn:E; [|reflexivity].
    exfalso. apply (Hm s t Hc). now apply mergeable_true.
Qed.

Lemma squash_from_ends rows : forall seg s,
  In s (squash_from seg rows) ->
  exists r, In r (seg :: rows) /\ same_end s r.
Proof.
  induction rows as [|row rest IH]; intros seg s; simpl.
  - intros [<-|[]]. exists seg. split; [now left|repeat split].
  - destruct (mergeable seg row) eqn:E.
    + apply mergeable_true in E as (_ & Ep & Ec).
      intros Hs. apply IH in Hs as (r & [<-|Hr] & Hsr).
      * exists row. split; [right; now left|].
        destruct Hsr as (Hr & Hp & Hc). unfold same_end. simpl in *.
        repeat split; congruence.
      * exists r. split; [now (right; right)|assumption].
    + intros [<-|Hs].
      * exists seg. split; [now left|repeat split].
      * apply IH in Hs as (r & Hr & Hsr). exists r.
        split; [now right|assumption].
Qed.

Lemma squash_from_keeps_labels rows : forall seg r,
  In r (seg :: rows) ->
  exists s, In s (squash_from seg rows)
            /\ child s = child r /\ population s = population r.
Proof.
  induction rows as [|row rest IH]; intros seg r Hr; simpl.
  - destruct Hr as [<-|[]]. exists seg. simpl. auto.
  - destruct (mergeable seg row) eqn:E.
    + apply mergeable_true in E as (_ & Ep & Ec).
      destruct Hr as [<-|[<-|Hr]].
      * destruct (IH (extend seg row) (extend seg row) (or_introl eq_refl))
          as (s & Hs & Hc & Hp). exists s. simpl in *. auto.
      * destruct (IH (extend seg row) (extend seg row) (or_introl eq_refl))
          as (s & Hs & Hc & Hp). exists s. simpl in *.
        repeat split; congruence.
      * apply (IH (extend seg row) r). now right.
    + destruct Hr as [<-|Hr].
      * exists seg. simpl. auto.
      * destruct (IH row r Hr) as (s & Hs & H). exists s. simpl. auto.
Qed.

Lemma squash_rows_ends rows s :
  In s (squash_rows rows) -> exists r, In r rows /\ same_end s r.
Proof.
  destruct rows as [|row rest]; [intros []|apply squash_from_ends].
Qed.

Lemma squash_rows_keeps_labels rows r :
  In r rows ->
  exists s, In s (squash_rows rows)
            /\ child s = child r /\ population s = population r.
Proof.
  destruct rows as [|row rest]; [intros []|apply squash_from_keeps_labels].
Qed.

(** X3 (nothing invented, no label lost).  For every input, each segment
    of the table starts where some input record starts and ends where some
    input record ends, and its child and population are those of both
    records, converted to [float64]; and every input record has a segment
    with its child and population, converted to [float64]. *)
Theorem segments_come_from_records df :
  exists out,
    squashed_ancestry_table df = Ok out
    /\ (forall s, In s out ->
          exists r1 r2, In r1 df /\ In r2 df
            /\ left s = left r1 /\ right s = right r2
            /\ child s = float64 (child r1)
            /\ child s = float64 (child r2)
            /\ population s = float64 (population r1)
            /\ population s = float64 (population r2))
    /\ (forall r, In r df ->
          exists s, In s out
            /\ child s = float64 (child r)
            /\ population s = float64 (population r)).
Proof.
  exists (squash_rows (frame df)).
  split; [apply squashed_ancestry_table_eq|]. split.
  - intros s Hs.
    destruct (squash_rows_starts _ s Hs) as (f1 & H1 & Hl & Hp1 & Hc1).
    destruct (squash_rows_ends _ s Hs) as (f2 & H2 & Hr & Hp2 & Hc2).
    apply frame_In in H1 as (r1 & H1 & ->).
    apply frame_In in H2 as (r2 & H2 & ->).
    exists r1, r2. simpl in *. repeat split; assumption.
  - intros r Hr.
    destruct (squash_rows_keeps_labels (frame df) (as_float r))
      as (s & Hs & Hc & Hp).
    { apply frame_In. now exists r. }
    exists s. simpl in *. auto.
Qed.

(** ** Children do not interact *)

Lemma insert_row_first r l : Forall (key_le r) l -> insert_row r l = r :: l.
Proof.
  destruct l as [|s l]; [reflexivity|]. intros H.
  inversion H as [|? ? Hs _]; subst. simpl.
  apply key_leb_le in Hs. now rewrite Hs.
Qed.

Lemma group_insert_row c r l :
  StronglySorted key_le l ->
  group c (insert_row r l)
  = if child r =? c then insert_row r (group c l) else group c l.
Proof.
  unfold group. induction 1 as [|s l Hl IH Hs]; simpl.
  - destruct (child r =? c); reflexivity.
  - destruct (key_leb r s) eqn:E; simpl.
    + destruct (child r =? c) eqn:Er; [|reflexivity].
      destruct (child s =? c) eqn:Es; simpl.
      * now rewrite E.
      * rewrite insert_row_first; [reflexivity|].
        apply key_leb_le in E. apply Forall_forall. intros t Ht.
        apply filter_In in Ht as [Ht _]. rewrite Forall_forall in Hs.
        eapply key_le_trans; [exact E|now apply Hs].
    + rewrite IH. destruct (child r =? c) eqn:Er;
        destruct (child s =? c) eqn:Es; simpl; try reflexivity.
      now rewrite E.
Qed.

Lemma group_sort_values c df :
  group c (sort_values df) = sort_values (group c df).
Proof.
  induction df as [|r df IH]; simpl; [reflexivity|].
  rewrite group_insert_row by apply sort_values_sorted.
  unfold group in *. simpl. rewrite IH.
  destruct (child r =? c); reflexivity.
Qed.

Lemma group_later_children c row rest :
  StronglySorted child_le (row :: rest) -> c < child row ->
  group c (row :: rest) = [].
Proof.
  intros Hs Hc. inversion Hs as [|? ? _ Hrow]; subst.
  assert (Forall (fun s => c < child s) (row :: rest)) as H.
  { constructor; [assumption|]. eapply Forall_impl; [|exact Hrow].
    unfold child_le. intros s. simpl. lia. }
  clear Hs Hrow Hc. unfold group.
  induction H as [|s l Hsc _ IH]; simpl; [reflexivity|].
  assert ((child s =? c) = false) as -> by lia. exact IH.
Qed.

Lemma group_squash_from c rows : forall seg,
  StronglySorted child_le (seg :: rows) ->
  group c (squash_from seg rows)
  = if child seg =? c then squash_from seg (group c rows)
    else squash_rows (group c rows).
Proof.
  induction rows as [|row rest IH]; intros seg Hs.
  - unfold group. simpl. destruct (child seg =? c); reflexivity.
  - inversion Hs as [|? ? Hrows Hseg]; subst.
    inversion Hseg as [|? ? Hsr Hseg']; subst.
    cbn [squash_from]. destruct (mergeable seg row) eqn:E.
    + pose proof E as E'. apply mergeable_true in E' as (_ & _ & Ec).
      rewrite IH.
      * simpl child. unfold group at 3 4. cbn [filter]. rewrite Ec.
        destruct (child seg =? c); [|reflexivity].
        cbn [squash_from]. now rewrite E.
      * inversion Hrows; subst. constructor; assumption.
    + change (group c (seg :: squash_from row rest))
        with (if child seg =? c
              then seg :: group c (squash_from row rest)
              else group c (squash_from row rest)).
      rewrite (IH row Hrows).
      destruct (child seg =? c) eqn:Es, (child row =? c) eqn:Er.
      * unfold group. cbn [filter]. rewrite Er.
        cbn [squash_from]. now rewrite E.
      * assert (group c (row :: rest) = []) as G
          by (apply group_later_children;
              [assumption|unfold child_le in Hsr; lia]).
        rewrite G. unfold group in G. cbn [filter] in G.
        rewrite Er in G. unfold group. rewrite G. reflexivity.
      * unfold group. cbn [filter]. now rewrite Er.
      * unfold group. cbn [filter]. now rewrite Er.
Qed.

Lemma group_squash_rows c rows :
  StronglySorted child_le rows ->
  group c (squash_rows rows) = squash_rows (group c rows).
Proof.
  destruct rows as [|row rest]; [reflexivity|]. intros Hs.
  cbn [squash_rows]. rewrite group_squash_from by assumption.
  unfold group. cbn [filter]. destruct (child row =? c); reflexivity.
Qed.

Lemma group_as_float c l :
  exact_children l -> group c (map as_float l) = map as_float (group c l).
Proof.
  unfold group. induction 1 as [|r l Hr _ IH]; simpl; [reflexivity|].
  unfold held_exactly in Hr. rewrite Hr.
  destruct (child r =? c); simpl; now rewrite IH.
Qed.

(** X4 (children do not interact).  For every input whose child
    identifiers are held exactly by [float64] and every child, the segments
    the table reports for the child are exactly the table the cell returns
    when it is given the child's records alone. *)
Theorem group_squashed_alone df c :
  exact_children df ->
  exists out alone,
    squashed_ancestry_table df = Ok out
    /\ squashed_ancestry_table (group c df) = Ok alone
    /\ group c out = alone.
Proof.
  intros He.
  exists (squash_rows (frame df)), (squash_rows (frame (group c df))).
  split; [apply squashed_ancestry_table_eq|].
  split; [apply squashed_ancestry_table_eq|].
  rewrite group_squash_rows by apply frame_child_sorted.
  unfold frame. rewrite group_as_float, group_sort_values; [reflexivity|].
  eapply Permutation_Forall; [apply sort_values_perm|exact He].
Qed.

Lemma group_squashed_alone_witness :
  exact_children sample_input
  /\ exists out alone,
       squashed_ancestry_table sample_input = Ok out
       /\ squashed_ancestry_table (group 0 sample_input) = Ok alone
       /\ group 0 out = alone.
Proof.
  assert (exact_children sample_input) as H by (repeat constructor).
  split; [exact H|exact (group_squashed_alone sample_input 0 H)].
Defined.

(** ** The table is minimal *)

Lemma StronglySorted_related (R : Row -> Row -> Prop) l a b :
  StronglySorted R l -> In a l -> In b l -> a = b \/ R a b \/ R b a.
Proof.
  induction 1 as [|x l Hl IH Hx]; intros Ha Hb; [destruct Ha|].
  rewrite Forall_forall in Hx.
  destruct Ha as [<-|Ha], Hb as [<-|Hb]; auto.
Qed.

Lemma key_sorted_NoDup l :
  StronglySorted key_lt l ->
  NoDup (map (fun r => (child r, left r)) l).
Proof.
  induction 1 as [|a l Hl IH Ha]; simpl; constructor; [|assumption].
  intros Hin. apply in_map_iff in Hin as (b & E & Hb).
  rewrite Forall_forall in Ha. specialize (Ha b Hb).
  inversion E. unfold key_lt in Ha. lia.
Qed.

(** A segment of a squashed table starts where its population starts: the
    position just before it is not reported with that population. *)
Lemma segment_start_is_boundary out s :
  Forall proper out -> StronglySorted before out ->
  Sorted unmergeable out -> In s out ->
  ~ labelled out (child s) (left s - 1) (population s).
Proof.
  intros Hp Hb Hm Hs (s' & Hs' & Hc & Hpop & Hx).
  rewrite Forall_forall in Hp.
  pose proof (Hp s Hs) as Ps. pose proof (Hp s' Hs') as Ps'.
  unfold proper in *.
  destruct (StronglySorted_related before out s' s Hb Hs' Hs)
    as [->|[H|H]].
  - lia.
  - assert (right s' = left s) as Ht by (unfold before in H; lia).
    assert (consecutive out s' s) as Hcons
      by (apply touching_rows_consecutive; try assumption;
          now apply Forall_forall).
    apply (Sorted_consecutive unmergeable) in Hcons; [|assumption].
    unfold unmergeable, mergeable in Hcons. lia.
  - unfold before in H. lia.
Qed.

Lemma squash_sorted_labelled df :
  Forall (fun r => left r <= right r) df ->
  forall c x p,
    labelled (squash_rows (sort_values df)) c x p <-> labelled df c x p.
Proof.
  intros H c x p. rewrite squash_rows_labelled.
  - split; apply labelled_perm; [symmetry|]; apply sort_values_perm.
  - eapply Permutation_Forall; [apply sort_values_perm|exact H].
Qed.

(** Rows that are mergeable stay so when they are read as [float64], so
    reading never adds a segment. *)
Lemma mergeable_as_float r s :
  mergeable r s = true -> mergeable (as_float r) (as_float s) = true.
Proof.
  rewrite !mergeable_true. simpl. intros (-> & -> & ->). auto.
Qed.

Lemma merge_count_as_float l :
  (merge_count l <= merge_count (map as_float l))%nat.
Proof.
  induction l as [|r l IH]; [apply Nat.le_refl|].
  destruct l as [|s l]; [apply Nat.le_refl|].
  cbn [map] in *. rewrite !merge_count_cons.
  destruct (mergeable r s) eqn:E.
  - rewrite (mergeable_as_float r s E). lia.
  - destruct (mergeable (as_float r) (as_float s)); lia.
Qed.

Lemma squash_read_shorter l :
  (length (squash_rows (map as_float l)) <= length (squash_rows l))%nat.
Proof.
  pose proof (squash_rows_length l).
  pose proof (squash_rows_length (map as_float l)) as H'.
  rewrite length_map in H'.
  pose proof (merge_count_as_float l). lia.
Qed.

(** X5 (minimality).  On an input that respects the contract, no table that
    reports the same populations at the same positions of the same children
    has fewer rows than the table the cell returns. *)
Theorem squashed_table_minimal df other :
  input_contract df = true ->
  (forall c x p, labelled other c x p <-> labelled df c x p) ->
  exists out,
    squashed_ancestry_table df = Ok out
    /\ (length out <= length other)%nat.
Proof.
  intros H Hsame. exists (squash_rows (frame df)).
  split; [apply squashed_ancestry_table_eq|].
  apply Nat.le_trans with (length (squash_rows (sort_values df)));
    [apply squash_read_shorter|].
  pose proof H as Hc. apply input_contract_spec in Hc as [Hpr _].
  apply sort_values_contract in H as (Hp & Hb & _).
  apply squash_rows_proper in Hp. apply squash_rows_before in Hb.
  pose proof (squash_rows_maximal (sort_values df)) as Hm.
  assert (forall c x p,
            labelled (squash_rows (sort_values df)) c x p
            <-> labelled other c x p) as Hl.
  { intros c x p. rewrite Hsame. apply squash_sorted_labelled.
    eapply Forall_impl; [|exact Hpr]. unfold proper. intros r. lia. }
  set (out := squash_rows (sort_values df)) in *.
  rewrite <- (length_map (fun r => (child r, left r)) out).
  rewrite <- (length_map (fun r => (child r, left r)) other).
  apply NoDup_incl_length.
  - apply key_sorted_NoDup.
    assert (Forall proper out) as Hp' by assumption.
    clear - Hp' Hb. induction Hb as [|a l Hl IH Ha]; constructor.
    + apply IH. now inversion Hp'.
    + inversion Hp' as [|? ? Pa _]; subst.
      eapply Forall_impl; [|exact Ha].
      unfold before, key_lt, proper in *. intros b. lia.
  - intros k Hk. apply in_map_iff in Hk as (s & <- & Hs).
    assert (proper s) as Ps by (rewrite Forall_forall in Hp; auto).
    assert (labelled out (child s) (left s) (population s)) as Hin
      by (exists s; unfold proper in Ps; repeat split; auto; lia).
    apply Hl in Hin as (t & Ht & Htc & Htp & Htx).
    apply in_map_iff. exists t. split; [|assumption].
    destruct (Z.eq_dec (left t) (left s)) as [E|E]; [congruence|].
    exfalso.
    apply (segment_start_is_boundary out s Hp Hb Hm Hs).
    apply Hl. exists t. repeat split; try assumption; lia.
Qed.

Lemma squashed_table_minimal_witness :
  input_contract sample_input = true
  /\ (forall c x p,
        labelled (rev sample_input) c x p <-> labelled sample_input c x p)
  /\ exists out,
       squashed_ancestry_table sample_input = Ok out
       /\ (length out <= length (rev sample_input))%nat.
Proof.
  assert (forall c x p,
            labelled (rev sample_input) c x p
            <-> labelled sample_input c x p) as H.
  { intros c x p.
    split; apply labelled_perm;
      [symmetry|]; apply Permutation_rev. }
  split; [reflexivity|]. split; [exact H|].
  apply (squashed_table_minimal sample_input (rev sample_input));
    [reflexivity|exact H].
Defined.

(** ** The plotting loop *)

Lemma getitem_colors_in p :
  colour_index p = true ->
  Python.getitem colors p = Python.Returns (colour_at p).
Proof.
  unfold colour_index. intros H.
  assert (p = -2 \/ p = -1 \/ p = 0 \/ p = 1) as [->|[->|[->| ->]]] by lia;
    reflexivity.
Qed.

Lemma getitem_colors_out p :
  colour_index p = false ->
  Python.getitem colors p = Python.Raises Python.IndexError.
Proof.
  unfold colour_index, Python.getitem. intros H.
  change (Z.of_nat (length colors)) with 2. cbv zeta.
  destruct (p <? 0) eqn:E.
  - destruct ((0 <=? p + 2) && (p + 2 <? 2)) eqn:E'; [lia|reflexivity].
  - destruct ((0 <=? p) && (p <? 2)) eqn:E'; [lia|reflexivity].
Qed.

Lemma plot_body_break len fig row :
  1 < child row ->
  plot_body len fig row = Python.Returns (Python.Break fig).
Proof.
  intros H. unfold plot_body.
  assert ((1 <? child row) = true) as -> by lia. reflexivity.
Qed.

Lemma plot_body_negative len fig row :
  child row < 0 -> plot_body len fig row = Python.Raises Python.KeyError.
Proof.
  intros H. unfold plot_body, chrom_labels.
  assert ((1 <? child row) = false) as -> by lia. cbn [Python.lookup].
  assert ((child row =? 0) = false) as -> by lia.
  assert ((child row =? 1) = false) as -> by lia. reflexivity.
Qed.

Lemma plot_body_chr0 len fig row :
  child row = 0 ->
  plot_body len fig row
  = if colour_index (population row)
    then Python.Returns (Python.Next
           (mkFigure (add_patch (chr0 fig) (drawn len row)) (chr1 fig)))
    else Python.Raises Python.IndexError.
Proof.
  intros H. unfold plot_body, chrom_labels. rewrite H. cbn.
  destruct (colour_index (population row)) eqn:E.
  - now rewrite getitem_colors_in.
  - now rewrite getitem_colors_out.
Qed.

Lemma plot_body_chr1 len fig row :
  child row = 1 ->
  plot_body len fig row
  = if colour_index (population row)
    then Python.Returns (Python.Next
           (mkFigure (chr0 fig) (add_patch (chr1 fig) (drawn len row))))
    else Python.Raises Python.IndexError.
Proof.
  intros H. unfold plot_body, chrom_labels. rewrite H. cbn.
  destruct (colour_index (population row)) eqn:E.
  - now rewrite getitem_colors_in.
  - now rewrite getitem_colors_out.
Qed.

Lemma plot_loop_sorted len rows : forall fig,
  StronglySorted child_le rows ->
  Forall (fun r => 0 <= child r) rows ->
  Python.for_loop (plot_body len) rows fig
  = if existsb uncoloured rows then Python.Raises Python.IndexError
    else Python.Returns
           (mkFigure (chr0 fig ++ map (drawn len) (group 0 rows))
                     (chr1 fig ++ map (drawn len) (group 1 rows))).
Proof.
  induction rows as [|row rest IH]; intros fig Hs Hc.
  - simpl. rewrite !app_nil_r. now destruct fig.
  - inversion Hs as [|? ? Hrest Hrow]; subst.
    inversion Hc as [|? ? Hc0 Hcrest]; subst.
    cbn [Python.for_loop existsb].
    assert (child row = 0 \/ child row = 1 \/ 1 < child row)
      as [E|[E|E]] by lia.
    + rewrite plot_body_chr0 by assumption. unfold uncoloured at 1.
      rewrite E. cbn [Z.leb Z.compare andb].
      destruct (colour_index (population row)); [|reflexivity].
      cbn [negb orb]. rewrite IH by assumption.
      destruct (existsb uncoloured rest); [reflexivity|].
      unfold group, add_patch. cbn [filter chr0 chr1]. rewrite E.
      cbn [Z.eqb map]. now rewrite <- app_assoc.
    + rewrite plot_body_chr1 by assumption. unfold uncoloured at 1.
      rewrite E. cbn [Z.leb Z.compare Pos.compare andb].
      destruct (colour_index (population row)); [|reflexivity].
      cbn [negb orb]. rewrite IH by assumption.
      destruct (existsb uncoloured rest); [reflexivity|].
      unfold group, add_patch. cbn [filter chr0 chr1]. rewrite E.
      cbn [Z.eqb map]. now rewrite <- app_assoc.
    + rewrite plot_body_break by assumption.
      assert (Forall (fun r => 1 < child r) (row :: rest)) as Hall.
      { constructor; [assumption|]. eapply Forall_impl; [|exact Hrow].
        unfold child_le. intros s. simpl. lia. }
      assert (existsb uncoloured (row :: rest) = false) as Hex.
      { clear - Hall. induction Hall as [|s l Hs1 _ IHl]; [reflexivity|].
        simpl. rewrite IHl. unfold uncoloured.
        assert ((child s <=? 1) = false) as -> by lia. reflexivity. }
      cbn [existsb] in Hex. rewrite Hex.
      rewrite (group_later_children 0 row rest) by (assumption || lia).
      rewrite (group_later_children 1 row rest) by (assumption || lia).
      simpl. rewrite !app_nil_r. now destruct fig.
Qed.

Lemma plot_loop_negative len rows :
  StronglySorted child_le rows ->
  (exists r, In r rows /\ child r < 0) ->
  Python.for_loop (plot_body len) rows (mkFigure [] [])
  = Python.Raises Python.KeyError.
Proof.
  intros Hs (r & Hr & Hneg). destruct rows as [|row rest]; [destruct Hr|].
  inversion Hs as [|? ? _ Hrow]; subst.
  cbn [Python.for_loop].
  rewrite plot_body_negative; [reflexivity|].
  destruct Hr as [->|Hr]; [assumption|].
  rewrite Forall_forall in Hrow. specialize (Hrow r Hr).
  unfold child_le in Hrow. lia.
Qed.

(** The table of the merger holds [float64] identifiers already, so the
    plotting loop reads its rows as they are. *)
Lemma plot_table_squashed len df :
  plot_table len (squash_rows (frame df))
  = Python.for_loop (plot_body len) (squash_rows (frame df))
                    (mkFigure [] []).
Proof.
  unfold plot_table. now rewrite iterrows_rows, frame_segments_fixed.
Qed.

Lemma float64_le_exact z k : held_exactly k -> z <= k -> float64 z <= k.
Proof.
  unfold held_exactly. intros E H.
  apply Z.le_trans with (float64 k); [now apply float64_monotone|lia].
Qed.

Lemma float64_ge_exact z k : held_exactly k -> k <= z -> k <= float64 z.
Proof.
  unfold held_exactly. intros E H.
  apply Z.le_trans with (float64 k); [lia|now apply float64_monotone].
Qed.

(** The children and populations of the table are those of the input,
    converted to [float64]. *)
Lemma squashed_labels df c p :
  (exists s, In s (squash_rows (frame df))
             /\ child s = c /\ population s = p)
  <-> (exists r, In r df /\ float64 (child r) = c
                 /\ float64 (population r) = p).
Proof.
  split.
  - intros (s & Hs & Hc & Hpop).
    destruct (squash_rows_starts _ s Hs) as (f & Hf & _ & Hp1 & Hc1).
    apply frame_In in Hf as (r & Hr & ->). simpl in *.
    exists r. split; [assumption|split; congruence].
  - intros (r & Hr & Hc & Hpop).
    destruct (squash_rows_keeps_labels (frame df) (as_float r))
      as (s & Hs & Hc1 & Hp1).
    { apply frame_In. now exists r. }
    exists s. simpl in *. split; [assumption|split; congruence].
Qed.

(** The conversion moves no identifier across the small constants the
    plotting loop compares with. *)
Lemma uncoloured_squashed df :
  existsb uncoloured (squash_rows (frame df)) = true
  <-> exists r, In r df /\ child r <= 1
                /\ ~ (-2 <= population r <= 1).
Proof.
  rewrite existsb_exists. split.
  - intros (s & Hs & Hu).
    destruct (proj1 (squashed_labels df (child s) (population s)))
      as (r & Hr & Hc & Hp); [eauto|].
    exists r. split; [assumption|].
    unfold uncoloured, colour_index in Hu. split.
    + destruct (Z_le_gt_dec (child r) 1) as [H|H]; [assumption|].
      pose proof (float64_ge_exact (child r) 2 eq_refl ltac:(lia)). lia.
    + intros [H1 H2].
      pose proof (float64_ge_exact (population r) (-2) eq_refl H1).
      pose proof (float64_le_exact (population r) 1 eq_refl H2). lia.
  - intros (r & Hr & Hc & Hp).
    destruct (proj2 (squashed_labels df (float64 (child r))
                       (float64 (population r))))
      as (s & Hs & Hc' & Hp'); [eauto|].
    exists s. split; [assumption|].
    pose proof (float64_le_exact (child r) 1 eq_refl Hc).
    assert (float64 (population r) <= -3 \/ 2 <= float64 (population r))
      as Hout.
    { destruct (Z_le_gt_dec (population r) (-3)) as [H3|H3].
      - left. now apply float64_le_exact.
      - right. apply float64_ge_exact; [reflexivity|lia]. }
    unfold uncoloured, colour_index. lia.
Qed.

Lemma nonnegative_squashed df :
  (forall r, In r df -> 0 <= child r) ->
  Forall (fun s => 0 <= child s) (squash_rows (frame df)).
Proof.
  intros H. apply Forall_forall. intros s Hs.
  destruct (proj1 (squashed_labels df (child s) (population s)))
    as (r & Hr & Hc & _); [eauto|].
  rewrite <- Hc. apply float64_ge_exact; [reflexivity|auto].
Qed.

(** X6 (the plot shows samples 0 and 1 in full).  When no child identifier
    is negative and the records of the children 0 and 1 have populations
    between -2 and 1, the plotting loop run on the table of the merger
    returns, having drawn on [chr0] every segment of child 0 and on [chr1]
    every segment of child 1, in table order, and nothing else: the table
    is sorted by child, so the [break] at the first child above 1 skips no
    segment of the two samples. *)
Theorem plot_draws_both_samples df len :
  (forall r, In r df -> 0 <= child r) ->
  (forall r, In r df -> child r <= 1 -> -2 <= population r <= 1) ->
  exists out,
    squashed_ancestry_table df = Ok out
    /\ plot_table len out
       = Python.Returns
           (mkFigure (map (drawn len) (group 0 out))
                     (map (drawn len) (group 1 out))).
Proof.
  intros Hc Hp. exists (squash_rows (frame df)).
  split; [apply squashed_ancestry_table_eq|].
  rewrite plot_table_squashed, plot_loop_sorted.
  - destruct (existsb uncoloured (squash_rows (frame df))) eqn:E;
      [|reflexivity].
    apply uncoloured_squashed in E as (r & Hr & Hr1 & Hr2).
    exfalso. apply Hr2. auto.
  - apply squash_rows_child_sorted, frame_child_sorted.
  - now apply nonnegative_squashed.
Qed.

Lemma plot_draws_both_samples_witness :
  (forall r, In r sample_input -> 0 <= child r)
  /\ (forall r, In r sample_input -> child r <= 1 ->
        -2 <= population r <= 1)
  /\ exists out,
       squashed_ancestry_table sample_input = Ok out
       /\ plot_table 12 out
          = Python.Returns
              (mkFigure (map (drawn 12) (group 0 out))
                        (map (drawn 12) (group 1 out))).
Proof.
  assert (forall r, In r sample_input ->
            0 <= child r /\ -2 <= population r <= 1) as H.
  { intros r Hr. simpl in Hr.
    destruct Hr as [<-|[<-|[<-|[<-|[<-|[]]]]]]; simpl;
      unfold popA, popB; lia. }
  split; [intros r Hr; apply (H r Hr)|].
  split; [intros r Hr _; apply (H r Hr)|].
  apply (plot_draws_both_samples sample_input 12).
  - intros r Hr. apply (H r Hr).
  - intros r Hr _. apply (H r Hr).
Defined.

(** X7 (when the plot fails).  Run on the table of the merger, the plotting
    loop raises [KeyError] exactly when the input has a record with a
    negative child, and [IndexError] exactly when it has none but has a
    record of child 0 or 1 whose population is not between -2 and 1. *)
Theorem plot_failures df len :
  exists out,
    squashed_ancestry_table df = Ok out
    /\ (plot_table len out = Python.Raises Python.KeyError
        <-> exists r, In r df /\ child r < 0)
    /\ (plot_table len out = Python.Raises Python.IndexError
        <-> (forall r, In r df -> 0 <= child r)
            /\ exists r, In r df /\ child r <= 1
                         /\ ~ (-2 <= population r <= 1)).
Proof.
  exists (squash_rows (frame df)).
  split; [apply squashed_ancestry_table_eq|].
  rewrite plot_table_squashed.
  assert (StronglySorted child_le (squash_rows (frame df))) as Hs
    by apply squash_rows_child_sorted, frame_child_sorted.
  destruct (existsb (fun r => child r <? 0) df) eqn:Eneg.
  - apply existsb_exists in Eneg as (r & Hr & Hneg).
    assert (exists r, In r df /\ child r < 0) as Hex
      by (exists r; split; [assumption|lia]).
    assert (Python.for_loop (plot_body len) (squash_rows (frame df))
              (mkFigure [] [])
            = Python.Raises Python.KeyError) as ->.
    { apply plot_loop_negative; [assumption|].
      destruct (proj2 (squashed_labels df (float64 (child r))
                         (float64 (population r))))
        as (s & Hs' & Hc & _); [eauto|].
      exists s. split; [assumption|].
      pose proof (float64_le_exact (child r) (-1) eq_refl ltac:(lia)).
      lia. }
    split; [tauto|]. split; [discriminate|].
    intros [Hall _]. specialize (Hall r Hr). lia.
  - assert (forall r, In r df -> 0 <= child r) as Hall.
    { intros r Hr. destruct (child r <? 0) eqn:E; [|lia].
      assert (existsb (fun r => child r <? 0) df = true)
        by (apply existsb_exists; eauto). congruence. }
    rewrite plot_loop_sorted by (assumption || now apply nonnegative_squashed).
    destruct (existsb uncoloured (squash_rows (frame df))) eqn:E.
    + apply uncoloured_squashed in E. split.
      * split; [discriminate|]. intros (r & Hr & Hneg).
        specialize (Hall r Hr). lia.
      * tauto.
    + split.
      * split; [discriminate|]. intros (r & Hr & Hneg).
        specialize (Hall r Hr). lia.
      * split; [discriminate|]. intros [_ Hex].
        apply uncoloured_squashed in Hex. congruence.
Qed.

(** X8 (two colour schemes).  Whenever the plotting loop and
    [plot_ancestry_chunk] both draw a row, they add the same rectangle to
    their axes but never in the same colour: the loop paints population 0
    red and population 1 blue, [plot_ancestry_chunk] the other way
    round. *)
Theorem colour_schemes_disagree len row fig fig' chrom chrom' printed :
  plot_body len fig row = Python.Returns (Python.Next fig') ->
  plot_ancestry_chunk len row chrom = (printed, Python.Returns chrom') ->
  exists c1 c2,
    c1 <> c2
    /\ ((population row = 0 /\ c1 = "blue"%string /\ c2 = "red"%string)
        \/ (population row = 1 /\ c1 = "red"%string
            /\ c2 = "blue"%string))
    /\ chrom' = chrom ++ [mkPolygon (chunk len row) c1]
    /\ ((chr0 fig' = chr0 fig ++ [mkPolygon (chunk len row) c2]
         /\ chr1 fig' = chr1 fig)
        \/ (chr0 fig' = chr0 fig
            /\ chr1 fig' = chr1 fig ++ [mkPolygon (chunk len row) c2])).
Proof.
  intros Hloop Hfun.
  assert (population row = 0 \/ population row = 1) as Hp.
  { unfold plot_ancestry_chunk in Hfun.
    destruct (population row =? 0) eqn:E0; [lia|].
    destruct (population row =? 1) eqn:E1; [lia|]. discriminate Hfun. }
  assert (child row = 0 \/ child row = 1) as Hc.
  { assert (child row < 0 \/ child row = 0 \/ child row = 1
            \/ 1 < child row) as [H|[H|[H|H]]] by lia; auto.
    - rewrite plot_body_negative in Hloop by assumption. discriminate.
    - rewrite plot_body_break in Hloop by assumption. discriminate. }
  unfold plot_ancestry_chunk in Hfun.
  destruct Hp as [Ep|Ep], Hc as [Ec|Ec]; rewrite Ep in Hfun;
    cbn in Hfun; inversion Hfun; subst chrom';
    [rewrite plot_body_chr0 in Hloop by assumption
    |rewrite plot_body_chr1 in Hloop by assumption
    |rewrite plot_body_chr0 in Hloop by assumption
    |rewrite plot_body_chr1 in Hloop by assumption];
    rewrite Ep in Hloop; cbn in Hloop; inversion Hloop; subst fig';
    unfold drawn, add_patch, chunk; rewrite Ep; cbn;
    [exists "blue"%string, "red"%string
    |exists "blue"%string, "red"%string
    |exists "red"%string, "blue"%string
    |exists "red"%string, "blue"%string];
    (split; [discriminate|]); (split; [tauto|]);
    (split; [reflexivity|auto]).
Qed.

Lemma colour_schemes_disagree_witness :
  let row := mkRow 0 5 popA 0 in
  let red := mkPolygon (chunk 10 row) "red"%string in
  let blue := mkPolygon (chunk 10 row) "blue"%string in
  exists c1 c2,
    c1 <> c2
    /\ ((population row = 0 /\ c1 = "blue"%string /\ c2 = "red"%string)
        \/ (population row = 1 /\ c1 = "red"%string
            /\ c2 = "blue"%string))
    /\ [blue] = [] ++ [mkPolygon (chunk 10 row) c1]
    /\ ((chr0 (mkFigure [red] [])
         = chr0 (mkFigure [] []) ++ [mkPolygon (chunk 10 row) c2]
         /\ chr1 (mkFigure [red] []) = chr1 (mkFigure [] []))
        \/ (chr0 (mkFigure [red] []) = chr0 (mkFigure [] [])
            /\ chr1 (mkFigure [red] [])
               = chr1 (mkFigure [] [])
                 ++ [mkPolygon (chunk 10 row) c2])).
Proof.
  apply (colour_schemes_disagree 10 (mkRow 0 5 popA 0) (mkFigure [] [])
           (mkFigure [mkPolygon (chunk 10 (mkRow 0 5 popA 0)) "red"%string] [])
           [] [mkPolygon (chunk 10 (mkRow 0 5 popA 0)) "blue"%string]
           [0]).
  - reflexivity.
  - reflexivity.
Defined.

(** ** Counting transitions *)

Lemma nth_error_set_nth_eq {A : Type} (xs : list A) i v :
  (i < length xs)%nat -> nth_error (set_nth xs i v) i = Some v.
Proof.
  revert i. induction xs as [|x xs IH]; intros [|i] H; simpl in *;
    try lia; [reflexivity|]. apply IH. lia.
Qed.

Lemma nth_error_set_nth_neq {A : Type} (xs : list A) i k v :
  k <> i -> nth_error (set_nth xs i v) k = nth_error xs k.
Proof.
  revert i k. induction xs as [|x xs IH]; intros [|i] [|k] H; simpl;
    try reflexivity; try congruence. apply IH. congruence.
Qed.

Lemma length_set_nth {A : Type} (xs : list A) i v :
  length (set_nth xs i v) = length xs.
Proof.
  revert i. induction xs as [|x xs IH]; intros [|i]; simpl; auto.
Qed.

Lemma index_found alleles a i :
  Python.index alleles a = Python.Returns i ->
  nth_error alleles i = Some a /\ (i < length alleles)%nat.
Proof.
  revert i. induction alleles as [|x xs IH]; intros i; simpl.
  - discriminate.
  - destruct (String.eqb x a) eqn:E.
    + intros H. inversion H; subst. apply String.eqb_eq in E. subst.
      simpl. split; [reflexivity|lia].
    + destruct (Python.index xs a) as [k|e]; simpl; [|discriminate].
      intros H. inversion H; subst.
      destruct (IH k eq_refl) as [H1 H2]. simpl. split; [assumption|lia].
Qed.

Lemma index_In alleles a :
  In a alleles -> exists i, Python.index alleles a = Python.Returns i.
Proof.
  induction alleles as [|x xs IH]; simpl; [intros []|].
  intros H. destruct (String.eqb x a) eqn:E; [eauto|].
  destruct H as [->|H]; [rewrite String.eqb_refl in E; discriminate|].
  destruct (IH H) as [i ->]. simpl. eauto.
Qed.

Lemma index_not_In alleles a :
  ~ In a alleles -> Python.index alleles a = Python.Raises Python.ValueError.
Proof.
  induction alleles as [|x xs IH]; simpl; [reflexivity|].
  intros H. destruct (String.eqb x a) eqn:E.
  - apply String.eqb_eq in E. tauto.
  - rewrite IH by tauto. reflexivity.
Qed.

Lemma square_zeros n : square n (zeros n).
Proof.
  unfold square, zeros. rewrite repeat_length. split; [reflexivity|].
  apply Forall_forall. intros row H. apply repeat_spec in H. subst.
  apply repeat_length.
Qed.

Lemma square_row n counts i :
  square n counts -> (i < n)%nat ->
  exists row, nth_error counts i = Some row /\ length row = n.
Proof.
  intros [Hl Hr] Hi.
  destruct (nth_error counts i) as [row|] eqn:E.
  - exists row. split; [reflexivity|].
    rewrite Forall_forall in Hr. apply Hr. eapply nth_error_In; eassumption.
  - apply nth_error_None in E. lia.
Qed.

Lemma increment_entries n counts i j :
  square n counts -> (i < n)%nat -> (j < n)%nat ->
  exists c counts',
    entry counts i j = Some c
    /\ increment counts i j = Python.Returns counts'
    /\ square n counts'
    /\ entry counts' i j = Some (int64 (c + 1))
    /\ (forall i' j', (i', j') <> (i, j) ->
          entry counts' i' j' = entry counts i' j').
Proof.
  intros Hsq Hi Hj.
  destruct (square_row n counts i Hsq Hi) as (row & Hrow & Hlen).
  destruct (nth_error row j) as [c|] eqn:Hc;
    [|apply nth_error_None in Hc; lia].
  exists c, (set_nth counts i (set_nth row j (int64 (c + 1)))).
  destruct Hsq as [Hl Hr].
  split; [unfold entry; now rewrite Hrow|].
  split; [unfold increment; now rewrite Hrow, Hc|].
  split; [|split].
  - split; [now rewrite length_set_nth|].
    apply Forall_forall. intros r Hin.
    apply In_nth_error in Hin as [k Hk].
    destruct (Nat.eq_dec k i) as [->|Hne].
    + rewrite nth_error_set_nth_eq in Hk by lia. inversion Hk; subst.
      now rewrite length_set_nth.
    + rewrite nth_error_set_nth_neq in Hk by assumption.
      rewrite Forall_forall in Hr. apply Hr.
      eapply nth_error_In; eassumption.
  - unfold entry. rewrite nth_error_set_nth_eq by lia.
    apply nth_error_set_nth_eq. lia.
  - intros i' j' Hne. unfold entry.
    destruct (Nat.eq_dec i' i) as [->|Hi'].
    + rewrite nth_error_set_nth_eq by lia. rewrite Hrow.
      apply nth_error_set_nth_neq. congruence.
    + now rewrite nth_error_set_nth_neq by assumption.
Qed.

Lemma int64_succ k : int64 (int64 k + 1) = int64 (k + 1).
Proof.
  unfold int64.
  replace ((k + 2 ^ 63) mod 2 ^ 64 - 2 ^ 63 + 1 + 2 ^ 63)
    with ((k + 2 ^ 63) mod 2 ^ 64 + 1) by ring.
  rewrite Zplus_mod_idemp_l.
  replace (k + 2 ^ 63 + 1) with (k + 1 + 2 ^ 63) by ring.
  reflexivity.
Qed.

Lemma int64_small k : - 2 ^ 63 <= k < 2 ^ 63 -> int64 k = k.
Proof.
  intros H. unfold int64.
  change (2 ^ 64) with (2 ^ 63 + 2 ^ 63) in *.
  rewrite Z.mod_small; lia.
Qed.

(** What one update does to the entry of the alleles [a] and [b]. *)
Lemma count_mutation_entry ts alleles aa counts counts' m a b i j k :
  square (length alleles) counts ->
  count_mutation ts alleles aa counts m = Python.Returns counts' ->
  Python.index alleles a = Python.Returns i ->
  Python.index alleles b = Python.Returns j ->
  entry counts i j = Some (int64 (Z.of_nat k)) ->
  square (length alleles) counts'
  /\ entry counts' i j
     = Some (int64 (Z.of_nat
                      (k + if from_to ts a b aa m then 1 else 0))).
Proof.
  intros Hsq Hstep Hi Hj He. unfold count_mutation in Hstep.
  unfold from_to.
  destruct (parent_allele ts aa m) as [pa|e]; [|discriminate Hstep].
  cbn [Python.bind] in Hstep.
  destruct (Python.index alleles pa) as [i0|e] eqn:Ei0;
    [|discriminate Hstep].
  cbn [Python.bind] in Hstep.
  destruct (Python.index alleles (derived_state m)) as [j0|e] eqn:Ej0;
    [|discriminate Hstep].
  cbn [Python.bind] in Hstep.
  destruct (index_found _ _ _ Ei0) as [Hn0 Hlt0].
  destruct (index_found _ _ _ Ej0) as [Hm0 Hltj0].
  destruct (index_found _ _ _ Hi) as [Hn Hlt].
  destruct (index_found _ _ _ Hj) as [Hm Hltj].
  destruct (increment_entries _ counts i0 j0 Hsq Hlt0 Hltj0)
    as (c & M & Hc & Hinc & HsqM & Hsame & Hother).
  rewrite Hinc in Hstep. inversion Hstep; subst counts'.
  split; [assumption|].
  destruct (String.eqb pa a) eqn:Ea, (String.eqb (derived_state m) b) eqn:Eb;
    cbn [andb].
  - apply String.eqb_eq in Ea, Eb. subst a b.
    assert (i0 = i) by congruence. assert (j0 = j) by congruence. subst.
    rewrite Hsame. rewrite He in Hc. inversion Hc; subst c.
    rewrite int64_succ. do 2 f_equal. lia.
  - rewrite Hother, He; [do 3 f_equal; lia|].
    intros E. inversion E; subst. apply String.eqb_neq in Eb.
    apply Eb. congruence.
  - rewrite Hother, He; [do 3 f_equal; lia|].
    intros E. inversion E; subst. apply String.eqb_neq in Ea.
    apply Ea. congruence.
  - rewrite Hother, He; [do 3 f_equal; lia|].
    intros E. inversion E; subst. apply String.eqb_neq in Ea.
    apply Ea. congruence.
Qed.

Lemma count_site_entry ts alleles aa a b i j muts : forall counts counts' k,
  square (length alleles) counts ->
  Python.for_each (count_mutation ts alleles aa) muts counts
  = Python.Returns counts' ->
  Python.index alleles a = Python.Returns i ->
  Python.index alleles b = Python.Returns j ->
  entry counts i j = Some (int64 (Z.of_nat k)) ->
  square (length alleles) counts'
  /\ entry counts' i j
     = Some (int64 (Z.of_nat
                      (k + length (filter (from_to ts a b aa) muts)))).
Proof.
  induction muts as [|m muts IH]; intros counts counts' k Hsq Hrun Hi Hj He.
  - simpl in Hrun. inversion Hrun; subst. simpl.
    rewrite Nat.add_0_r. auto.
  - cbn [Python.for_each] in Hrun.
    destruct (count_mutation ts alleles aa counts m) as [M|e] eqn:Em;
      [|discriminate Hrun].
    cbn [Python.bind] in Hrun.
    destruct (count_mutation_entry _ _ _ _ _ _ _ _ _ _ _ Hsq Em Hi Hj He)
      as [HsqM HeM].
    destruct (IH _ _ _ HsqM Hrun Hi Hj HeM) as [Hsq' He'].
    split; [assumption|]. rewrite He'. do 3 f_equal.
    cbn [filter]. destruct (from_to ts a b aa m); simpl; lia.
Qed.

Lemma list_sum_cons x l : list_sum (x :: l) = (x + list_sum l)%nat.
Proof. reflexivity. Qed.

Lemma count_sites_entry ts alleles a b i j ss : forall counts counts' k,
  square (length alleles) counts ->
  Python.for_each (count_site ts alleles) ss counts
  = Python.Returns counts' ->
  Python.index alleles a = Python.Returns i ->
  Python.index alleles b = Python.Returns j ->
  entry counts i j = Some (int64 (Z.of_nat k)) ->
  square (length alleles) counts'
  /\ entry counts' i j
     = Some (int64 (Z.of_nat
          (k + list_sum
                 (map (fun s =>
                         length (filter (from_to ts a b (ancestral_state s))
                                        (mutations s))) ss)))).
Proof.
  induction ss as [|s ss IH]; intros counts counts' k Hsq Hrun Hi Hj He.
  - simpl in Hrun. inversion Hrun; subst. simpl.
    rewrite Nat.add_0_r. auto.
  - cbn [Python.for_each] in Hrun.
    destruct (count_site ts alleles counts s) as [M|e] eqn:Es;
      [|discriminate Hrun].
    cbn [Python.bind] in Hrun. unfold count_site in Es.
    destruct (count_site_entry _ _ _ _ _ _ _ _ _ _ _ Hsq Es Hi Hj He)
      as [HsqM HeM].
    destruct (IH _ _ _ HsqM Hrun Hi Hj HeM) as [Hsq' He'].
    split; [assumption|]. rewrite He'. do 3 f_equal.
    cbn [map]. rewrite list_sum_cons. lia.
Qed.

Lemma entry_zeros n i j :
  (i < n)%nat -> (j < n)%nat -> entry (zeros n) i j = Some 0.
Proof.
  intros Hi Hj. unfold entry, zeros.
  rewrite (nth_error_repeat _ Hi). apply nth_error_repeat. exact Hj.
Qed.

(** X9 (what the table counts).  When the loops of [count_transitions]
    finish, the array has as many rows and columns as there are alleles,
    and for alleles [a] and [b] first listed at the positions [i] and [j]
    the entry [counts[i, j]] is the number of mutations of the tree
    sequence from [a] to [b], as a 64-bit integer. *)
Theorem transition_counts_entries ts alleles counts a b i j :
  transition_counts ts alleles = Python.Returns counts ->
  Python.index alleles a = Python.Returns i ->
  Python.index alleles b = Python.Returns j ->
  square (length alleles) counts
  /\ entry counts i j = Some (int64 (Z.of_nat (count_from_to ts a b))).
Proof.
  intros Hrun Hi Hj. unfold transition_counts in Hrun.
  destruct (index_found _ _ _ Hi) as [_ Hlt].
  destruct (index_found _ _ _ Hj) as [_ Hltj].
  apply (count_sites_entry ts alleles a b i j (sites ts)
           (zeros (length alleles)) counts 0%nat);
    try assumption.
  - apply square_zeros.
  - rewrite entry_zeros by assumption. reflexivity.
Qed.

Lemma transition_counts_entries_witness :
  exists counts,
    transition_counts sample_ts nucleotides = Python.Returns counts
    /\ square (length nucleotides) counts
    /\ entry counts 1 2
       = Some (int64 (Z.of_nat (count_from_to sample_ts "C" "G"))).
Proof.
  eexists. split; [reflexivity|].
  apply (transition_counts_entries sample_ts nucleotides _ "C" "G" 1 2);
    reflexivity.
Defined.

Lemma sum_set_nth row : forall j c v,
  nth_error row j = Some c ->
  fold_right Z.add 0 (set_nth row j v) = fold_right Z.add 0 row - c + v.
Proof.
  induction row as [|x row IH]; intros [|j] c v H; simpl in *;
    try discriminate.
  - inversion H; subst. lia.
  - rewrite (IH j c v H). lia.
Qed.

Lemma total_set_nth counts : forall i row row',
  nth_error counts i = Some row ->
  total (set_nth counts i row')
  = total counts - fold_right Z.add 0 row + fold_right Z.add 0 row'.
Proof.
  unfold total.
  induction counts as [|x counts IH]; intros [|i] row row' H; simpl in *;
    try discriminate.
  - inversion H; subst. lia.
  - rewrite (IH i row row' H). lia.
Qed.

Lemma sum_nonneg row : Forall (fun c => 0 <= c) row ->
  0 <= fold_right Z.add 0 row.
Proof. induction 1; simpl; lia. Qed.

Lemma entry_le_sum row : forall j c,
  Forall (fun c => 0 <= c) row -> nth_error row j = Some c ->
  0 <= c <= fold_right Z.add 0 row.
Proof.
  induction row as [|x row IH]; intros [|j] c H E; simpl in *;
    try discriminate; inversion H as [|? ? Hx Hrow]; subst.
  - inversion E; subst. pose proof (sum_nonneg row Hrow). lia.
  - specialize (IH j c Hrow E). lia.
Qed.

Lemma row_le_total counts : forall i row,
  Forall (Forall (fun c => 0 <= c)) counts ->
  nth_error counts i = Some row ->
  fold_right Z.add 0 row <= total counts.
Proof.
  unfold total.
  induction counts as [|x counts IH]; intros [|i] row H E; simpl in *;
    try discriminate; inversion H as [|? ? Hx Hrest]; subst.
  - inversion E; subst.
    assert (0 <= fold_right Z.add 0 (map (fold_right Z.add 0) counts)).
    { clear - Hrest. induction Hrest as [|r l Hr _ IHl]; simpl; [lia|].
      pose proof (sum_nonneg r Hr). lia. }
    lia.
  - specialize (IH i row Hrest E). pose proof (sum_nonneg x Hx). lia.
Qed.

Lemma Forall_set_nth {A : Type} (P : A -> Prop) xs : forall i v,
  Forall P xs -> P v -> Forall P (set_nth xs i v).
Proof.
  induction xs as [|x xs IH]; intros [|i] v H Hv; simpl;
    inversion H; subst; constructor; auto.
Qed.

Lemma increment_total counts counts' i j :
  Forall (Forall (fun c => 0 <= c)) counts ->
  increment counts i j = Python.Returns counts' ->
  total counts < 2 ^ 63 - 1 ->
  total counts' = total counts + 1
  /\ Forall (Forall (fun c => 0 <= c)) counts'.
Proof.
  intros Hpos Hinc Hsmall. unfold increment in Hinc.
  destruct (nth_error counts i) as [row|] eqn:Hrow; [|discriminate].
  destruct (nth_error row j) as [c|] eqn:Hc; [|discriminate].
  inversion Hinc; subst counts'.
  assert (Forall (fun c => 0 <= c) row) as Hr.
  { rewrite Forall_forall in Hpos. apply Hpos.
    eapply nth_error_In; eassumption. }
  pose proof (entry_le_sum row j c Hr Hc) as Hle.
  pose proof (row_le_total counts i row Hpos Hrow) as Hle'.
  assert (int64 (c + 1) = c + 1) as E by (apply int64_small; lia).
  rewrite E. split.
  - rewrite (total_set_nth counts i row _ Hrow).
    rewrite (sum_set_nth row j c _ Hc). lia.
  - apply Forall_set_nth; [assumption|].
    apply Forall_set_nth; [assumption|lia].
Qed.

Lemma count_site_total ts alleles aa muts : forall counts counts' k,
  Forall (Forall (fun c => 0 <= c)) counts ->
  Python.for_each (count_mutation ts alleles aa) muts counts
  = Python.Returns counts' ->
  total counts = Z.of_nat k ->
  Z.of_nat (k + length muts) < 2 ^ 63 ->
  total counts' = Z.of_nat (k + length muts)
  /\ Forall (Forall (fun c => 0 <= c)) counts'.
Proof.
  induction muts as [|m muts IH]; intros counts counts' k Hpos Hrun Ht Hk.
  - simpl in Hrun. inversion Hrun; subst. simpl.
    rewrite Nat.add_0_r. auto.
  - cbn [Python.for_each] in Hrun.
    destruct (count_mutation ts alleles aa counts m) as [M|e] eqn:Em;
      [|discriminate Hrun].
    cbn [Python.bind] in Hrun. unfold count_mutation in Em.
    destruct (parent_allele ts aa m) as [pa|e]; [|discriminate Em].
    cbn [Python.bind] in Em.
    destruct (Python.index alleles pa) as [i0|e]; [|discriminate Em].
    cbn [Python.bind] in Em.
    destruct (Python.index alleles (derived_state m)) as [j0|e];
      [|discriminate Em].
    cbn [Python.bind] in Em. cbn [length] in *.
    destruct (increment_total counts M i0 j0 Hpos Em) as [HtM HposM];
      [lia|].
    destruct (IH M counts' (S k) HposM Hrun) as [Ht' Hpos']; [lia|lia|].
    split; [|assumption]. rewrite Ht'. f_equal. lia.
Qed.

Lemma count_sites_total ts alleles ss : forall counts counts' k,
  Forall (Forall (fun c => 0 <= c)) counts ->
  Python.for_each (count_site ts alleles) ss counts
  = Python.Returns counts' ->
  total counts = Z.of_nat k ->
  Z.of_nat (k + list_sum (map (fun s => length (mutations s)) ss))
  < 2 ^ 63 ->
  total counts'
  = Z.of_nat (k + list_sum (map (fun s => length (mutations s)) ss))
  /\ Forall (Forall (fun c => 0 <= c)) counts'.
Proof.
  induction ss as [|s ss IH]; intros counts counts' k Hpos Hrun Ht Hk.
  - simpl in Hrun. inversion Hrun; subst. simpl.
    rewrite Nat.add_0_r. auto.
  - cbn [Python.for_each] in Hrun.
    destruct (count_site ts alleles counts s) as [M|e] eqn:Es;
      [|discriminate Hrun].
    cbn [Python.bind] in Hrun. unfold count_site in Es.
    cbn [map] in *. rewrite list_sum_cons in *.
    destruct (count_site_total _ _ _ _ _ _ _ Hpos Es Ht) as [HtM HposM];
      [lia|].
    destruct (IH M counts' _ HposM Hrun HtM) as [Ht' Hpos']; [lia|].
    split; [|assumption]. rewrite Ht'. f_equal. lia.
Qed.

Lemma sum_repeat_zero n : fold_right Z.add 0 (repeat 0 n) = 0.
Proof. induction n as [|k IH]; simpl; [reflexivity|exact IH]. Qed.

Lemma total_repeat row m :
  fold_right Z.add 0 row = 0 -> total (repeat row m) = 0.
Proof.
  intros Hr. unfold total. induction m as [|k IH]; simpl; [reflexivity|].
  rewrite IH, Hr. reflexivity.
Qed.

Lemma total_zeros n : total (zeros n) = 0.
Proof. apply total_repeat, sum_repeat_zero. Qed.

(** X10 (every mutation is counted once).  When the loops of
    [count_transitions] finish on a tree sequence with fewer than 2^63
    mutations, the entries of the array add up to the number of mutations,
    and none is negative. *)
Theorem transition_counts_total ts alleles counts :
  transition_counts ts alleles = Python.Returns counts ->
  Z.of_nat (num_mutations ts) < 2 ^ 63 ->
  total counts = Z.of_nat (num_mutations ts)
  /\ Forall (Forall (fun c => 0 <= c)) counts.
Proof.
  intros Hrun Hsmall. unfold transition_counts in Hrun.
  apply (count_sites_total ts alleles (sites ts)
           (zeros (length alleles)) counts 0%nat); try assumption.
  - unfold zeros. apply Forall_forall. intros row Hrow.
    apply repeat_spec in Hrow. subst. apply Forall_forall.
    intros c Hc. apply repeat_spec in Hc. lia.
  - apply total_zeros.
Qed.

Lemma transition_counts_total_witness :
  exists counts,
    transition_counts sample_ts nucleotides = Python.Returns counts
    /\ Z.of_nat (num_mutations sample_ts) < 2 ^ 63
    /\ total counts = Z.of_nat (num_mutations sample_ts)
    /\ Forall (Forall (fun c => 0 <= c)) counts.
Proof.
  eexists. split; [reflexivity|]. split; [reflexivity|].
  apply (transition_counts_total sample_ts nucleotides);
    reflexivity.
Defined.

Lemma parent_allele_found ts aa m :
  (parent m <> NULL -> exists pm, mutation ts (parent m) = Python.Returns pm) ->
  exists pa, parent_allele ts aa m = Python.Returns pa.
Proof.
  intros H. unfold parent_allele.
  destruct (parent m =? NULL) eqn:E; cbn [negb]; [eauto|].
  destruct H as [pm ->]; [lia|]. cbn [Python.bind]. eauto.
Qed.

Lemma count_mutation_known ts alleles aa counts m pa :
  square (length alleles) counts ->
  parent_allele ts aa m = Python.Returns pa ->
  In pa alleles -> In (derived_state m) alleles ->
  exists counts',
    count_mutation ts alleles aa counts m = Python.Returns counts'
    /\ square (length alleles) counts'.
Proof.
  intros Hsq Hpa Hin Hda. unfold count_mutation. rewrite Hpa.
  cbn [Python.bind].
  destruct (index_In alleles pa Hin) as [i Hi].
  destruct (index_In alleles _ Hda) as [j Hj].
  rewrite Hi, Hj. cbn [Python.bind].
  destruct (index_found _ _ _ Hi) as [_ Hlt].
  destruct (index_found _ _ _ Hj) as [_ Hltj].
  destruct (increment_entries _ counts i j Hsq Hlt Hltj)
    as (c & M & _ & Hinc & HsqM & _).
  eauto.
Qed.

Lemma count_mutation_unknown ts alleles aa counts m pa :
  parent_allele ts aa m = Python.Returns pa ->
  ~ In pa alleles \/ ~ In (derived_state m) alleles ->
  count_mutation ts alleles aa counts m = Python.Raises Python.ValueError.
Proof.
  intros Hpa H. unfold count_mutation. rewrite Hpa. cbn [Python.bind].
  destruct (in_dec String.string_dec pa alleles) as [Hin|Hout].
  - destruct H as [H|H]; [contradiction|].
    destruct (index_In alleles pa Hin) as [i ->]. cbn [Python.bind].
    now rewrite index_not_In.
  - now rewrite index_not_In.
Qed.

Lemma count_site_dichotomy ts alleles aa muts : forall counts,
  square (length alleles) counts ->
  (forall m, In m muts -> parent m <> NULL ->
     exists pm, mutation ts (parent m) = Python.Returns pm) ->
  (unknown_among ts alleles aa muts
   /\ Python.for_each (count_mutation ts alleles aa) muts counts
      = Python.Raises Python.ValueError)
  \/ (~ unknown_among ts alleles aa muts
      /\ exists counts',
           Python.for_each (count_mutation ts alleles aa) muts counts
           = Python.Returns counts'
           /\ square (length alleles) counts').
Proof.
  induction muts as [|m muts IH]; intros counts Hsq Hfound.
  - right. split; [intros (m & _ & [] & _)|]. simpl. eauto.
  - destruct (parent_allele_found ts aa m) as [pa Hpa];
      [apply Hfound; now left|].
    cbn [Python.for_each].
    destruct (in_dec String.string_dec pa alleles) as [Hin|Hout];
      [destruct (in_dec String.string_dec (derived_state m) alleles)
         as [Hda|Hda]|].
    + destruct (count_mutation_known ts alleles aa counts m pa
                  Hsq Hpa Hin Hda) as (M & -> & HsqM).
      cbn [Python.bind].
      destruct (IH M HsqM) as [[Hu Hr]|[Hu Hr]].
      * intros m' Hm'. apply Hfound. now right.
      * left. split; [|assumption].
        destruct Hu as (m' & pa' & Hm' & H1 & H2).
        exists m', pa'. split; [now right|auto].
      * right. split; [|assumption].
        intros (m' & pa' & [<-|Hm'] & H1 & H2).
        -- rewrite Hpa in H1. inversion H1; subst. tauto.
        -- apply Hu. exists m', pa'. auto.
    + left. split.
      * exists m, pa. split; [now left|auto].
      * rewrite (count_mutation_unknown ts alleles aa counts m pa Hpa)
          by auto. reflexivity.
    + left. split.
      * exists m, pa. split; [now left|auto].
      * rewrite (count_mutation_unknown ts alleles aa counts m pa Hpa)
          by auto. reflexivity.
Qed.

Lemma count_sites_dichotomy ts alleles ss : forall counts,
  square (length alleles) counts ->
  (forall s m, In s ss -> In m (mutations s) -> parent m <> NULL ->
     exists pm, mutation ts (parent m) = Python.Returns pm) ->
  ((exists s, In s ss
      /\ unknown_among ts alleles (ancestral_state s) (mutations s))
   /\ Python.for_each (count_site ts alleles) ss counts
      = Python.Raises Python.ValueError)
  \/ (~ (exists s, In s ss
           /\ unknown_among ts alleles (ancestral_state s) (mutations s))
      /\ exists counts',
           Python.for_each (count_site ts alleles) ss counts
           = Python.Returns counts'
           /\ square (length alleles) counts').
Proof.
  induction ss as [|s ss IH]; intros counts Hsq Hfound.
  - right. split; [intros (s & [] & _)|]. simpl. eauto.
  - cbn [Python.for_each]. unfold count_site at 1 3.
    destruct (count_site_dichotomy ts alleles (ancestral_state s)
                (mutations s) counts Hsq) as [[Hu Hr]|[Hu (M & Hr & HsqM)]].
    + intros m Hm. apply (Hfound s m). now left. assumption.
    + left. split; [exists s; split; [now left|assumption]|].
      rewrite Hr. reflexivity.
    + rewrite Hr. cbn [Python.bind].
      destruct (IH M HsqM) as [[Hu' Hr']|[Hu' Hr']].
      * intros s' m Hs'. apply Hfound. now right.
      * left. split; [|assumption].
        destruct Hu' as (s' & Hs' & H). exists s'. split; [now right|auto].
      * right. split; [|assumption].
        intros (s' & [<-|Hs'] & H); [contradiction|].
        apply Hu'. eauto.
Qed.

Lemma unknown_state_sites ts alleles :
  unknown_state ts alleles
  <-> exists s, In s (sites ts)
        /\ unknown_among ts alleles (ancestral_state s) (mutations s).
Proof.
  unfold unknown_state, unknown_among. split.
  - intros (s & m & pa & Hs & Hm & H). exists s. split; [assumption|].
    exists m, pa. auto.
  - intros (s & Hs & m & pa & Hm & H). exists s, m, pa. auto.
Qed.

Lemma getitem_row n (counts : list (list Z)) j :
  square n counts -> (j < n)%nat ->
  exists row, Python.getitem counts (Z.of_nat j) = Python.Returns row.
Proof.
  intros Hsq Hj. destruct (square_row n counts j Hsq Hj) as (row & Hrow & _).
  destruct Hsq as [Hl _]. exists row. unfold Python.getitem.
  assert ((Z.of_nat j <? 0) = false) as -> by lia.
  assert (((0 <=? Z.of_nat j) && (Z.of_nat j <? Z.of_nat (length counts)))
          = true) as -> by lia.
  rewrite Nat2Z.id, Hrow. reflexivity.
Qed.

Lemma print_rows_lines n counts items : forall lines,
  square n counts ->
  Forall (fun ja => (fst ja < n)%nat) items ->
  exists out,
    Python.for_each (print_row counts) items lines = Python.Returns out
    /\ length out = (length lines + length items)%nat.
Proof.
  induction items as [|[j a] items IH]; intros lines Hsq Hall.
  - exists lines. simpl. split; [reflexivity|lia].
  - inversion Hall as [|? ? Hj Hrest]; subst. simpl in Hj.
    destruct (getitem_row n counts j Hsq Hj) as [row Hrow].
    cbn [Python.for_each print_row]. rewrite Hrow. cbn [Python.bind].
    destruct (IH (lines ++ [print2 (String.append a tab)
                              (String.concat tab (map Python.str row))])
                 Hsq Hrest) as (out & -> & Hlen).
    exists out. split; [reflexivity|].
    rewrite Hlen, length_app. simpl. lia.
Qed.

(** X11 (when the count fails).  On a tree sequence in which every parent
    of a mutation can be looked up, [count_transitions] raises
    [ValueError], having printed nothing, exactly when some mutation goes
    from or to a state that is not among [alleles]; otherwise it prints the
    header and one line for each allele. *)
Theorem count_transitions_outcome ts alleles :
  parents_found ts ->
  (count_transitions ts alleles = Python.Raises Python.ValueError
   <-> unknown_state ts alleles)
  /\ ((exists lines,
         count_transitions ts alleles = Python.Returns lines
         /\ length lines = S (length alleles))
      <-> ~ unknown_state ts alleles).
Proof.
  intros Hfound. unfold count_transitions, transition_counts.
  rewrite !unknown_state_sites.
  destruct (count_sites_dichotomy ts alleles (sites ts)
              (zeros (length alleles)) (square_zeros _) Hfound)
    as [[Hu Hr]|[Hu (counts & Hr & Hsq)]]; rewrite Hr; cbn [Python.bind].
  - split; [tauto|]. split; [|tauto].
    intros (lines & H & _). discriminate H.
  - destruct (print_rows_lines (length alleles) counts
                (combine (seq 0 (length alleles)) alleles)
                [print2 tab (String.concat tab alleles)] Hsq)
      as (out & Hout & Hlen).
    { apply Forall_forall. intros [j a] Hin. simpl.
      apply in_combine_l in Hin. apply in_seq in Hin. lia. }
    rewrite Hout. split.
    + split; [discriminate|tauto].
    + split; [tauto|]. intros _. exists out. split; [reflexivity|].
      rewrite Hlen, length_combine, length_seq. simpl. lia.
Qed.

Lemma count_transitions_outcome_witness :
  parents_found sample_ts
  /\ (count_transitions sample_ts nucleotides
      = Python.Raises Python.ValueError
      <-> unknown_state sample_ts nucleotides)
  /\ ((exists lines,
         count_transitions sample_ts nucleotides = Python.Returns lines
         /\ length lines = S (length nucleotides))
      <-> ~ unknown_state sample_ts nucleotides).
Proof.
  assert (parents_found sample_ts) as H.
  { intros s m Hs Hm Hp. simpl in Hs.
    destruct Hs as [<-|[<-|[]]]; simpl in Hm.
    - destruct Hm as [<-|[<-|[]]]; simpl in *.
      + exfalso. apply Hp. reflexivity.
      + eexists. reflexivity.
    - destruct Hm as [<-|[]]; simpl in *.
      exfalso. apply Hp. reflexivity. }
  split; [exact H|].
  exact (count_transitions_outcome sample_ts nucleotides H).
Defined.

(** ** The census nodes *)

Lemma census_fold nodes : forall acc,
  fold_left Census.census_body nodes acc
  = acc ++ map Census.id
             (filter (fun n => QArith_base.Qeq_bool (Census.time n)
                                                    Census.census_time)
                     nodes).
Proof.
  induction nodes as [|n nodes IH]; intros acc; simpl.
  - now rewrite app_nil_r.
  - rewrite IH. unfold Census.census_body.
    destruct (QArith_base.Qeq_bool (Census.time n) Census.census_time);
      simpl; [now rewrite <- app_assoc|reflexivity].
Qed.

Lemma census_from times : forall start,
  let nodes :=
    map (fun it => Census.mkNode (Z.of_nat (fst it)) (snd it))
        (combine (seq start (length times)) times) in
  let found :=
    map Census.id
        (filter (fun n => QArith_base.Qeq_bool (Census.time n)
                                               Census.census_time) nodes) in
  StronglySorted Z.lt found
  /\ (forall k, In k found <->
        exists i t, k = Z.of_nat (start + i)
          /\ nth_error times i = Some t
          /\ QArith_base.Qeq t Census.census_time).
Proof.
  induction times as [|t times IH]; intros start; cbn zeta.
  - simpl. split; [constructor|].
    intros k. split; [intros []|].
    intros (i & t & _ & H & _). destruct i; discriminate H.
  - destruct (IH (S start)) as [IHs IHm]. cbn zeta in IHs, IHm.
    cbn [length seq combine map filter fst snd Census.time].
    assert (forall k,
              (exists i t', k = Z.of_nat (start + i)
                 /\ nth_error (t :: times) i = Some t'
                 /\ QArith_base.Qeq t' Census.census_time)
              <-> (k = Z.of_nat start
                   /\ QArith_base.Qeq t Census.census_time)
                  \/ (exists i t', k = Z.of_nat (S start + i)
                        /\ nth_error times i = Some t'
                        /\ QArith_base.Qeq t' Census.census_time)) as Hsplit.
    { intros k. split.
      - intros ([|i] & t' & Hk & Hn & Ht); simpl in Hn.
        + inversion Hn; subst. left. rewrite Nat.add_0_r. auto.
        + right. exists i, t'. split; [|auto]. rewrite Hk. f_equal. lia.
      - intros [[Hk Ht]|(i & t' & Hk & Hn & Ht)].
        + exists 0%nat, t. rewrite Nat.add_0_r. auto.
        + exists (S i), t'. split; [|auto]. rewrite Hk. f_equal. lia. }
    destruct (QArith_base.Qeq_bool t Census.census_time) eqn:E.
    + cbn [map Census.id]. split.
      * constructor; [assumption|]. apply Forall_forall. intros k Hk.
        apply IHm in Hk as (i & t' & -> & _). lia.
      * intros k. rewrite Hsplit. cbn [In]. rewrite IHm.
        apply QArith_base.Qeq_bool_iff in E. intuition.
    + split; [assumption|].
      intros k. rewrite Hsplit, IHm. split; [auto|].
      intros [[_ Ht]|H]; [|assumption].
      apply QArith_base.Qeq_bool_iff in Ht. congruence.
Qed.

(** X12 (the census nodes).  The loop leaves in [census_nodes] the
    identifiers of exactly the nodes whose time equals 599.5, in strictly
    increasing order, so none twice. *)
Theorem census_nodes_sorted_and_exact times :
  StronglySorted Z.lt (Census.census_nodes times)
  /\ (forall k, In k (Census.census_nodes times) <->
        exists i t, k = Z.of_nat i
          /\ nth_error times i = Some t
          /\ QArith_base.Qeq t Census.census_time).
Proof.
  unfold Census.census_nodes, Census.nodes. rewrite census_fold.
  cbn [app]. apply (census_from times 0).
Qed.

(** ** Reading the VCF file *)

Section VcfLoader.

Variable int : Vcf.text -> Python.outcome Z.
Variable SampleData : Type.
Variable add_site :
  SampleData -> Z -> list Z -> list Vcf.text -> Python.outcome SampleData.

Lemma load_line_header sd line :
  Vcf.is_header line = true ->
  Vcf.load_line int SampleData add_site sd line = Python.Returns sd.
Proof.
  destruct line as [|c line]; [discriminate|]. simpl. intros H.
  unfold Vcf.load_line. cbn. rewrite H. reflexivity.
Qed.

(** X13 (header lines are ignored).  Whatever [int] and [add_site] do, the
    loop has the same result, sites added or exception raised, on a file
    and on the file without its lines that start with [#], wherever they
    stand. *)
Theorem vcf_headers_ignored lines sd :
  Vcf.load int SampleData add_site
           (filter (fun line => negb (Vcf.is_header line)) lines) sd
  = Vcf.load int SampleData add_site lines sd.
Proof.
  unfold Vcf.load. revert sd.
  induction lines as [|line lines IH]; intros sd; [reflexivity|].
  cbn [filter]. destruct (Vcf.is_header line) eqn:E; cbn [negb].
  - cbn [Python.for_each]. rewrite load_line_header by assumption.
    cbn [Python.bind]. apply IH.
  - cbn [Python.for_each].
    destruct (Vcf.load_line int SampleData add_site sd line);
      cbn [Python.bind]; [apply IH|reflexivity].
Qed.

Lemma ints_digits zs :
  Vcf.reads_digits int ->
  Forall (fun z => 0 <= z <= 9) zs ->
  Vcf.ints int (map Vcf.digit_char zs) = Python.Returns zs.
Proof.
  intros Hint. induction 1 as [|z zs Hz _ IH]; [reflexivity|].
  cbn [map Vcf.ints]. rewrite Hint.
  assert (Vcf.digit (Vcf.digit_char z) = Some z) as ->.
  { assert (z = 0 \/ z = 1 \/ z = 2 \/ z = 3 \/ z = 4 \/ z = 5 \/ z = 6
            \/ z = 7 \/ z = 8 \/ z = 9)
      as [->|[->|[->|[->|[->|[->|[->|[->|[->| ->]]]]]]]]] by lia;
      reflexivity. }
  cbn [Python.bind]. rewrite IH. reflexivity.
Qed.

Lemma ints_not_digit s c :
  Vcf.reads_digits int ->
  In c s -> Vcf.digit c = None ->
  Vcf.ints int s = Python.Raises Python.ValueError.
Proof.
  intros Hint. induction s as [|x s IH]; intros Hin Hc; [destruct Hin|].
  cbn [Vcf.ints]. rewrite Hint.
  destruct (Vcf.digit x) as [d|] eqn:E; [|reflexivity].
  cbn [Python.bind]. destruct Hin as [->|Hin]; [congruence|].
  rewrite (IH Hin Hc). reflexivity.
Qed.

End VcfLoader.

Lemma split_no_sep sep s :
  ~ In sep s -> Vcf.split sep s = [s].
Proof.
  induction s as [|c s IH]; intros H; [reflexivity|]. cbn [Vcf.split].
  destruct (Ascii.eqb c sep) eqn:E.
  - apply Ascii.eqb_eq in E. subst. exfalso. apply H. now left.
  - rewrite IH; [reflexivity|]. intros Hin. apply H. now right.
Qed.

Lemma split_field sep field rest :
  ~ In sep field ->
  Vcf.split sep (field ++ sep :: rest) = field :: Vcf.split sep rest.
Proof.
  induction field as [|c field IH]; intros H.
  - cbn [app Vcf.split]. now rewrite Ascii.eqb_refl.
  - cbn [app Vcf.split]. destruct (Ascii.eqb c sep) eqn:E.
    + apply Ascii.eqb_eq in E. subst. exfalso. apply H. now left.
    + rewrite IH; [reflexivity|]. intros Hin. apply H. now right.
Qed.

Lemma split_join sep fields :
  fields <> [] -> Forall (fun field => ~ In sep field) fields ->
  Vcf.split sep (Vcf.join sep fields) = fields.
Proof.
  induction fields as [|field fields IH]; intros Hne Hall; [congruence|].
  inversion Hall as [|? ? Hf Hrest]; subst.
  destruct fields as [|field' fields].
  - simpl. now apply split_no_sep.
  - cbn [Vcf.join]. rewrite split_field by assumption.
    f_equal. apply IH; [discriminate|assumption].
Qed.

Lemma join_snoc sep fields field s :
  Vcf.join sep (fields ++ [field]) ++ s
  = Vcf.join sep (fields ++ [field ++ s]).
Proof.
  induction fields as [|f fields IH]; [reflexivity|].
  destruct fields as [|f' fields].
  - simpl. now rewrite <- app_assoc.
  - cbn [app Vcf.join] in *. rewrite <- app_assoc. cbn [app].
    now rewrite IH.
Qed.

Lemma vcf_remove_app c s t :
  Vcf.remove c (s ++ t) = Vcf.remove c s ++ Vcf.remove c t.
Proof. apply filter_app. Qed.

Lemma digit_char_plain z :
  0 <= z <= 9 ->
  Ascii.eqb (Vcf.digit_char z) Vcf.bar = false
  /\ Ascii.eqb (Vcf.digit_char z) Vcf.newline = false
  /\ Vcf.digit_char z <> Vcf.tab.
Proof.
  intros H.
  assert (z = 0 \/ z = 1 \/ z = 2 \/ z = 3 \/ z = 4 \/ z = 5 \/ z = 6
          \/ z = 7 \/ z = 8 \/ z = 9)
    as [->|[->|[->|[->|[->|[->|[->|[->|[->| ->]]]]]]]]] by lia;
    (split; [reflexivity|split; [reflexivity|discriminate]]).
Qed.

Lemma join_cons sep f g rest :
  Vcf.join sep (f :: g :: rest) = f ++ sep :: Vcf.join sep (g :: rest).
Proof. reflexivity. Qed.

Lemma remove_phased alleles :
  Forall (fun z => 0 <= z <= 9) alleles ->
  Vcf.remove Vcf.newline (Vcf.remove Vcf.bar (Vcf.phased alleles))
  = map Vcf.digit_char alleles.
Proof.
  unfold Vcf.phased.
  induction 1 as [|z zs Hz Hzs IH]; [reflexivity|].
  destruct (digit_char_plain z Hz) as (Hb & Hn & _).
  destruct zs as [|z' zs].
  - simpl. rewrite Hb. simpl. rewrite Hn. reflexivity.
  - change (map (fun a => [Vcf.digit_char a]) (z :: z' :: zs))
      with ([Vcf.digit_char z]
            :: map (fun a => [Vcf.digit_char a]) (z' :: zs)).
    change (map (fun a => [Vcf.digit_char a]) (z' :: zs))
      with ([Vcf.digit_char z']
            :: map (fun a => [Vcf.digit_char a]) zs) at 1.
    rewrite join_cons.
    change ([Vcf.digit_char z']
            :: map (fun a => [Vcf.digit_char a]) zs)
      with (map (fun a => [Vcf.digit_char a]) (z' :: zs)).
    cbn [app]. unfold Vcf.remove at 2. cbn [filter].
    rewrite Hb. cbn [negb]. rewrite Ascii.eqb_refl. cbn [negb].
    unfold Vcf.remove at 1. cbn [filter]. rewrite Hn. cbn [negb].
    cbn [map]. f_equal. exact IH.
Qed.

Lemma phased_no_tab alleles :
  Forall (fun z => 0 <= z <= 9) alleles ->
  ~ In Vcf.tab (Vcf.phased alleles).
Proof.
  unfold Vcf.phased.
  induction 1 as [|z zs Hz Hzs IH]; [intros []|].
  destruct (digit_char_plain z Hz) as (_ & _ & Ht).
  destruct zs as [|z' zs].
  - simpl. intros [E|[]]. congruence.
  - change (map (fun a => [Vcf.digit_char a]) (z :: z' :: zs))
      with ([Vcf.digit_char z]
            :: [Vcf.digit_char z']
            :: map (fun a => [Vcf.digit_char a]) zs).
    rewrite join_cons. cbn [app]. intros [E|[E|Hin]].
    + congruence.
    + discriminate E.
    + now apply IH.
Qed.

Lemma getitem_nth {A : Type} (xs : list A) k x :
  nth_error xs k = Some x ->
  Python.getitem xs (Z.of_nat k) = Python.Returns x.
Proof.
  intros H. unfold Python.getitem.
  assert (k < length xs)%nat by (apply nth_error_Some; congruence).
  assert ((Z.of_nat k <? 0) = false) as -> by lia.
  assert (((0 <=? Z.of_nat k) && (Z.of_nat k <? Z.of_nat (length xs)))
          = true) as -> by lia.
  now rewrite Nat2Z.id, H.
Qed.

Lemma remove_digits c zs :
  (forall z, In z zs -> Ascii.eqb (Vcf.digit_char z) c = false) ->
  Vcf.remove c (map Vcf.digit_char zs) = map Vcf.digit_char zs.
Proof.
  induction zs as [|z zs IH]; intros H; [reflexivity|].
  unfold Vcf.remove in *. cbn [map filter].
  rewrite (H z (or_introl eq_refl)). cbn [negb]. f_equal.
  apply IH. intros z' Hz'. apply H. now right.
Qed.

(** The genotypes of a list of phased samples, read the way the loop reads
    them. *)
Lemma genotypes_of_samples samples :
  Forall (Forall (fun z => 0 <= z <= 9)) samples ->
  Vcf.remove Vcf.newline
    (Vcf.remove Vcf.bar (concat (map Vcf.phased samples)))
  = map Vcf.digit_char (concat samples).
Proof.
  induction 1 as [|s samples Hs _ IH]; [reflexivity|].
  cbn [map concat]. rewrite !vcf_remove_app, IH, remove_phased by assumption.
  now rewrite map_app.
Qed.

Section VcfRecords.

Variable int : Vcf.text -> Python.outcome Z.
Variable SampleData : Type.
Variable add_site :
  SampleData -> Z -> list Z -> list Vcf.text -> Python.outcome SampleData.

(** X14 (a phased record is read back).  Let [int] read the decimal digits
    one by one.  A VCF record whose first nine fields hold no tab, whose
    CHROM does not start with [#], whose POS [int] reads as [n] and whose
    samples are phased genotypes with alleles 0 to 9 makes the loop call
    [add_site] once, with [n], the alleles of all samples in order, and the
    two strings REF and ALT. *)
Theorem vcf_record_read sd chrom pos id ref alt qual filter info format
        samples n :
  Vcf.reads_digits int ->
  Vcf.is_header chrom = false ->
  Forall (fun field => ~ In Vcf.tab field)
         [chrom; pos; id; ref; alt; qual; filter; info; format] ->
  int pos = Python.Returns n ->
  Forall (Forall (fun z => 0 <= z <= 9)) samples ->
  Vcf.load_line int SampleData add_site sd
    (Vcf.record chrom pos id ref alt qual filter info format samples)
  = add_site sd n (concat samples) [ref; alt].
Proof.
  intros Hint Hhead Htabs Hpos Hsamples.
  assert (exists first rest,
            Vcf.record chrom pos id ref alt qual filter info format samples
            = first :: rest
            /\ Ascii.eqb first Vcf.hash = false) as (first & rest & Eline & Hfirst).
  { unfold Vcf.record. destruct chrom as [|c chrom].
    - cbn [app Vcf.join]. eexists. eexists. split; [reflexivity|].
      reflexivity.
    - cbn [app Vcf.join]. eexists. eexists. split; [reflexivity|].
      exact Hhead. }
  assert (exists tail,
            Vcf.split Vcf.tab
              (Vcf.record chrom pos id ref alt qual filter info format
                          samples)
            = [chrom; pos; id; ref; alt; qual; filter; info] ++ tail
            /\ Vcf.remove Vcf.newline
                 (Vcf.remove Vcf.bar (concat (skipn 1 tail)))
               = map Vcf.digit_char (concat samples))
    as (tail & Esplit & Egens).
  { unfold Vcf.record.
    inversion Htabs as [|? ? H0 Ht1]; subst.
    inversion Ht1 as [|? ? H1 Ht2]; subst.
    inversion Ht2 as [|? ? H2 Ht3]; subst.
    inversion Ht3 as [|? ? H3 Ht4]; subst.
    inversion Ht4 as [|? ? H4 Ht5]; subst.
    inversion Ht5 as [|? ? H5 Ht6]; subst.
    inversion Ht6 as [|? ? H6 Ht7]; subst.
    inversion Ht7 as [|? ? H7 Ht8]; subst.
    inversion Ht8 as [|? ? H8 _]; subst.
    assert (forall field, ~ In Vcf.tab field ->
              ~ In Vcf.tab (field ++ [Vcf.newline])) as Hnl.
    { intros field Hf Hin. apply in_app_or in Hin as [Hin|[E|[]]];
        [contradiction|discriminate E]. }
    induction samples as [|last init _] using rev_ind.
    - exists [format ++ [Vcf.newline]]. split.
      + change ([chrom; pos; id; ref; alt; qual; filter; info; format]
                ++ map Vcf.phased [])
          with ([chrom; pos; id; ref; alt; qual; filter; info]
                ++ [format]).
        rewrite join_snoc. apply split_join; [discriminate|].
        repeat constructor; auto.
      + reflexivity.
    - exists (format :: map Vcf.phased init
                ++ [Vcf.phased last ++ [Vcf.newline]]). split.
      + rewrite map_app. cbn [map].
        change ([chrom; pos; id; ref; alt; qual; filter; info; format]
                ++ map Vcf.phased init ++ [Vcf.phased last])
          with (([chrom; pos; id; ref; alt; qual; filter; info; format]
                 ++ map Vcf.phased init) ++ [Vcf.phased last]).
        rewrite join_snoc.
        rewrite split_join; [reflexivity|discriminate|].
        apply Forall_app in Hsamples as [Hinit Hlast].
        inversion Hlast as [|? ? Hl _]; subst.
        rewrite <- app_assoc. cbn [app]. repeat constructor; auto.
        apply Forall_app. split.
        * apply Forall_forall. intros f Hf.
          apply in_map_iff in Hf as (s & <- & Hs).
          apply phased_no_tab. rewrite Forall_forall in Hinit. auto.
        * constructor; [|constructor].
          apply Hnl. now apply phased_no_tab.
      + cbn [skipn]. rewrite concat_app. cbn [concat].
        rewrite app_nil_r, app_assoc.
        replace (concat (map Vcf.phased init) ++ Vcf.phased last)
          with (concat (map Vcf.phased (init ++ [last])))
          by (rewrite map_app, concat_app; cbn [map concat];
              now rewrite app_nil_r).
        rewrite (vcf_remove_app Vcf.bar), (vcf_remove_app Vcf.newline).
        rewrite genotypes_of_samples by assumption.
        change (Vcf.remove Vcf.newline (Vcf.remove Vcf.bar [Vcf.newline]))
          with (@nil Ascii.ascii).
        now rewrite app_nil_r. }
  unfold Vcf.load_line.
  rewrite Esplit. rewrite Eline at 1.
  change (Python.getitem (first :: rest) 0) with (Python.Returns first).
  cbn [Python.bind]. rewrite Hfirst. cbn [negb].
  set (l := [chrom; pos; id; ref; alt; qual; filter; info] ++ tail).
  change 1 with (Z.of_nat 1). change 3 with (Z.of_nat 3).
  change 4 with (Z.of_nat 4).
  rewrite (getitem_nth l 1 pos eq_refl). cbn [Python.bind].
  rewrite Hpos. cbn [Python.bind].
  rewrite (getitem_nth l 3 ref eq_refl). cbn [Python.bind].
  rewrite (getitem_nth l 4 alt eq_refl). cbn [Python.bind].
  change (skipn 9 l) with (skipn 1 tail).
  rewrite Egens. rewrite ints_digits; [reflexivity|assumption|].
  apply Forall_concat. exact Hsamples.
Qed.

(** X15 (anything but phased digits stops the loop).  Let [int] read the
    decimal digits one by one.  On a line that is not a header, has at
    least five fields and a POS that [int] reads, a character in the sample
    columns that is neither a decimal digit nor [|] nor a newline (the [/]
    of an unphased genotype, the [.] of a missing one, the [:] of a further
    FORMAT entry) makes the loop raise [ValueError] before [add_site] is
    called. *)
Theorem vcf_bad_genotype sd line fields pos n c :
  Vcf.reads_digits int ->
  line <> [] -> Vcf.is_header line = false ->
  Vcf.split Vcf.tab line = fields ->
  (5 <= length fields)%nat ->
  nth_error fields 1 = Some pos -> int pos = Python.Returns n ->
  In c (concat (skipn 9 fields)) ->
  c <> Vcf.bar -> c <> Vcf.newline -> Vcf.digit c = None ->
  Vcf.load_line int SampleData add_site sd line
  = Python.Raises Python.ValueError.
Proof.
  intros Hint Hne Hhead Hsplit Hlen Hp Hpos Hin Hbar Hnl Hdigit.
  destruct line as [|first rest]; [congruence|].
  unfold Vcf.load_line.
  change (Python.getitem (first :: rest) 0) with (Python.Returns first).
  cbn [Python.bind]. simpl in Hhead. rewrite Hhead. cbn [negb].
  rewrite Hsplit.
  change 1 with (Z.of_nat 1). change 3 with (Z.of_nat 3).
  change 4 with (Z.of_nat 4).
  rewrite (getitem_nth _ 1 pos Hp). cbn [Python.bind].
  rewrite Hpos. cbn [Python.bind].
  destruct (nth_error fields 3) as [ref|] eqn:E3;
    [|apply nth_error_None in E3; lia].
  destruct (nth_error fields 4) as [alt|] eqn:E4;
    [|apply nth_error_None in E4; lia].
  rewrite (getitem_nth _ 3 ref E3). cbn [Python.bind].
  rewrite (getitem_nth _ 4 alt E4). cbn [Python.bind].
  rewrite (ints_not_digit int _ c Hint); [reflexivity| |assumption].
  unfold Vcf.remove. apply filter_In. split.
  - apply filter_In. split; [assumption|].
    destruct (Ascii.eqb c Vcf.bar) eqn:E; [|reflexivity].
    apply Ascii.eqb_eq in E. contradiction.
  - destruct (Ascii.eqb c Vcf.newline) eqn:E; [|reflexivity].
    apply Ascii.eqb_eq in E. contradiction.
Qed.

End VcfRecords.

Lemma sample_int_reads_digits : Vcf.reads_digits Vcf.sample_int.
Proof.
  intros c. unfold Vcf.sample_int. cbn [Vcf.decimal].
  destruct (Vcf.digit c) as [d|]; reflexivity.
Qed.

Lemma vcf_record_read_witness :
  Vcf.load_line Vcf.sample_int _ Vcf.record_site [] sample_record
  = Vcf.record_site [] 42 [0; 1; 1; 1]
      [String.list_ascii_of_string "A"; String.list_ascii_of_string "T"].
Proof.
  apply (vcf_record_read Vcf.sample_int _ Vcf.record_site []
           (String.list_ascii_of_string "1")
           (String.list_ascii_of_string "42")
           (String.list_ascii_of_string ".")
           (String.list_ascii_of_string "A")
           (String.list_ascii_of_string "T")
           (String.list_ascii_of_string ".")
           (String.list_ascii_of_string "PASS")
           (String.list_ascii_of_string ".")
           (String.list_ascii_of_string "GT")
           [[0; 1]; [1; 1]] 42).
  - exact sample_int_reads_digits.
  - reflexivity.
  - repeat constructor; simpl; intuition discriminate.
  - reflexivity.
  - repeat constructor; lia.
Defined.

Lemma vcf_bad_genotype_witness :
  Vcf.load_line Vcf.sample_int _ Vcf.record_site [] unphased_record
  = Python.Raises Python.ValueError.
Proof.
  apply (vcf_bad_genotype Vcf.sample_int _ Vcf.record_site []
           unphased_record (Vcf.split Vcf.tab unphased_record)
           (String.list_ascii_of_string "42") 42 "/"%char).
  - exact sample_int_reads_digits.
  - discriminate.
  - reflexivity.
  - reflexivity.
  - simpl. lia.
  - reflexivity.
  - reflexivity.
  - simpl. auto.
  - discriminate.
  - discriminate.
  - reflexivity.
Defined.
